(** * arm_var_f32: variance of a float32 vector (CMSIS DSP, V1.4.5a)

    A shallow embedding of
    [tracker/software/CMSIS/DSP/StatisticsFunctions/arm_var_f32.c].

    - [float32_t] values are IEEE-754 binary32 numbers, modelled by the
      Standard Library's [spec_float] at precision 24 and [emax] 128;
      every C operator on floats is the correctly rounded (nearest, ties
      to even) operation of [SpecFloat].  [spec_float] has one NaN and no
      payload.  Each operation is rounded to binary32 on its own (no
      wider intermediate format, no fused multiply-add).
    - [uint32_t] values are integers [Z] in the range [0, 2^32).  The only
      operations on them here are comparisons, [>> 2], [% 4], the
      decrement of a positive counter and the conversion to float, none
      of which wraps.  The loop counter [blkCnt], which only counts down
      to zero, and the read pointer [pInput], kept as its offset from
      [pSrc], are natural numbers.  The theorems hold for every integer
      [blockSize], so for every [uint32_t] one.
    - The memory the function touches is the array behind [pSrc] and the
      float behind [pResult].  The signature has neither [const] nor
      [restrict]: [pResult] points either at a cell of its own, outside
      the array, or at an element of the array ([result_ptr]).
      [arm_var_f32_ptr] is the function with that pointer as a parameter;
      [arm_var_f32] is the call whose [pResult] is outside the array.  A
      load or store outside the array is undefined behaviour and makes
      the run fail.  Every load and store is recorded in an event log. *)

From Stdlib Require Import ZArith List Bool Lia QArith Qfield.
From Stdlib Require Import Floats.SpecFloat.
Import ListNotations.

Local Open Scope Z_scope.

(** ** float32 arithmetic *)

Definition float32_t : Type := spec_float.

Module F32.

Definition prec : Z := 24.
Definition emax : Z := 128.

Definition add : float32_t -> float32_t -> float32_t := SFadd prec emax.
Definition sub : float32_t -> float32_t -> float32_t := SFsub prec emax.
Definition mul : float32_t -> float32_t -> float32_t := SFmul prec emax.
Definition div : float32_t -> float32_t -> float32_t := SFdiv prec emax.

(** Conversion of an integer to float32, as the C casts
    [(float32_t) blockSize] and the implicit conversions perform it. *)
Definition of_Z (z : Z) : float32_t := binary_normalize prec emax z 0 false.

(** The literals [0.0f] and [1.0f]. *)
Definition zero : float32_t := S754_zero false.
Definition one : float32_t := of_Z 1.

Definition nan : float32_t := S754_nan.
Definition pinf : float32_t := S754_infinity false.

Definition is_nan (x : float32_t) : bool :=
  match x with S754_nan => true | _ => false end.

Definition is_finite (x : float32_t) : bool :=
  match x with S754_zero _ | S754_finite _ _ _ => true | _ => false end.

(** A float32 datum: a [spec_float] whose mantissa and exponent are
    those of a binary32 number. *)
Definition valid (x : float32_t) : bool := valid_binary prec emax x.

Definition eqb (x y : float32_t) : bool :=
  match x, y with
  | S754_zero s, S754_zero t => Bool.eqb s t
  | S754_infinity s, S754_infinity t => Bool.eqb s t
  | S754_nan, S754_nan => true
  | S754_finite s m e, S754_finite t n f =>
      Bool.eqb s t && Pos.eqb m n && Z.eqb e f
  | _, _ => false
  end.

End F32.

(** ** Memory, events and the monad of the embedding *)

Inductive event : Type :=
| EvLoad (i : nat)            (* a read of pSrc[i] *)
| EvStore (v : float32_t).    (* a write of v to *pResult *)

Record machine : Type := mkMachine {
  m_src : list float32_t;          (* the array pSrc points to *)
  m_result : option float32_t;     (* the float outside the array that
                                      pResult may point at; None while
                                      never written *)
  m_log : list event               (* most recent event first *)
}.

Definition events (m : machine) : list event := rev (m_log m).

Definition initial (src : list float32_t) : machine :=
  {| m_src := src; m_result := None; m_log := [] |}.

(** A computation either fails (undefined behaviour) or returns a value
    and the next machine state. *)
Definition M (A : Type) : Type := machine -> option (A * machine).

Definition ret {A} (a : A) : M A := fun m => Some (a, m).

Definition bind {A B} (c : M A) (k : A -> M B) : M B :=
  fun m => match c m with
           | Some (a, m') => k a m'
           | None => None
           end.

Notation "x <- c ;; k" := (bind c (fun x => k))
  (at level 61, c at next level, right associativity).
Notation "' pat <- c ;; k" := (bind c (fun x => match x with pat => k end))
  (at level 61, pat pattern, c at next level, right associativity).

(** [*(pSrc + i)] *)
Definition load (i : nat) : M float32_t :=
  fun m => match nth_error (m_src m) i with
           | Some v => Some (v, {| m_src := m_src m;
                                   m_result := m_result m;
                                   m_log := EvLoad i :: m_log m |})
           | None => None
           end.

(** Where [pResult] points: at a float of its own outside the array, the
    cell [m_result], or at the element [pSrc[i]] of the array. *)
Inductive result_ptr : Type :=
| Outside
| Inside (i : nat).

(** The list [l] with [v] at index [i]. *)
Fixpoint upd (l : list float32_t) (i : nat) (v : float32_t)
  : list float32_t :=
  match l, i with
  | [], _ => []
  | _ :: tl, O => v :: tl
  | x :: tl, S i' => x :: upd tl i' v
  end.

(** [*pResult = v]: the store goes where [pResult] points. *)
Definition store_at (pResult : result_ptr) (v : float32_t) : M unit :=
  fun m =>
    match pResult with
    | Outside =>
        Some (tt, {| m_src := m_src m;
                     m_result := Some v;
                     m_log := EvStore v :: m_log m |})
    | Inside i =>
        if (i <? length (m_src m))%nat then
          Some (tt, {| m_src := upd (m_src m) i v;
                       m_result := m_result m;
                       m_log := EvStore v :: m_log m |})
        else None
    end.

(** The array after a store of [v] through [pResult]. *)
Definition src_after (pResult : result_ptr) (v : float32_t)
  (src : list float32_t) : list float32_t :=
  match pResult with
  | Outside => src
  | Inside i => upd src i v
  end.

(** [pResult] points at a float that exists. *)
Definition in_bounds (pResult : result_ptr) (src : list float32_t) : bool :=
  match pResult with
  | Outside => true
  | Inside i => (i <? length src)%nat
  end.

(** [pResult] does not point into the first [blockSize] elements. *)
Definition outside_block (pResult : result_ptr) (blockSize : Z) : bool :=
  match pResult with
  | Outside => true
  | Inside i => (Z.to_nat blockSize <=? i)%nat
  end.

(** The float [pResult] points at. *)
Definition deref (pResult : result_ptr) (m : machine) : option float32_t :=
  match pResult with
  | Outside => m_result m
  | Inside i => nth_error (m_src m) i
  end.

(** ** The function *)

(** The build-time selector: [CM0_CM3] when [ARM_MATH_CM0_FAMILY] or
    [ARM_MATH_CM3_FAMILY] is defined, [CM4_CM7] otherwise. *)
Inductive arch : Type := CM0_CM3 | CM4_CM7.

(** Lines 105-120: the unrolled loop of the first pass.  [blkCnt] is the
    loop counter, [pInput] the offset of the read pointer from [pSrc]. *)
Fixpoint sum_loop4 (blkCnt : nat) (pInput : nat) (sum : float32_t)
  : M (nat * float32_t) :=
  match blkCnt with
  | O => ret (pInput, sum)
  | S blkCnt' =>
      in1 <- load pInput ;;
      in2 <- load (pInput + 1) ;;
      in3 <- load (pInput + 2) ;;
      in4 <- load (pInput + 3) ;;
      let sum := F32.add sum in1 in
      let sum := F32.add sum in2 in
      let sum := F32.add sum in3 in
      let sum := F32.add sum in4 in
      sum_loop4 blkCnt' (pInput + 4)%nat sum
  end.

(** Lines 134-141: the single-element loop of the first pass. *)
Fixpoint sum_loop1 (blkCnt : nat) (pInput : nat) (sum : float32_t)
  : M (nat * float32_t) :=
  match blkCnt with
  | O => ret (pInput, sum)
  | S blkCnt' =>
      x <- load pInput ;;
      sum_loop1 blkCnt' (pInput + 1)%nat (F32.add sum x)
  end.

(** Lines 155-168: the unrolled loop of the second pass. *)
Fixpoint dev_loop4 (fMean : float32_t) (blkCnt : nat) (pInput : nat)
  (fSum : float32_t) : M (nat * float32_t) :=
  match blkCnt with
  | O => ret (pInput, fSum)
  | S blkCnt' =>
      x <- load pInput ;;
      let fValue := F32.sub x fMean in
      let fSum := F32.add fSum (F32.mul fValue fValue) in
      x <- load (pInput + 1) ;;
      let fValue := F32.sub x fMean in
      let fSum := F32.add fSum (F32.mul fValue fValue) in
      x <- load (pInput + 2) ;;
      let fValue := F32.sub x fMean in
      let fSum := F32.add fSum (F32.mul fValue fValue) in
      x <- load (pInput + 3) ;;
      let fValue := F32.sub x fMean in
      let fSum := F32.add fSum (F32.mul fValue fValue) in
      dev_loop4 fMean blkCnt' (pInput + 4)%nat fSum
  end.

(** Lines 178-185: the single-element loop of the second pass. *)
Fixpoint dev_loop1 (fMean : float32_t) (blkCnt : nat) (pInput : nat)
  (fSum : float32_t) : M (nat * float32_t) :=
  match blkCnt with
  | O => ret (pInput, fSum)
  | S blkCnt' =>
      x <- load pInput ;;
      let fValue := F32.sub x fMean in
      let fSum := F32.add fSum (F32.mul fValue fValue) in
      dev_loop1 fMean blkCnt' (pInput + 1)%nat fSum
  end.

(** Lines 97-141: the first pass; returns [sum]. *)
Definition pass1 (a : arch) (blockSize : Z) : M float32_t :=
  let pInput := 0%nat in
  let sum := F32.zero in
  match a with
  | CM4_CM7 =>
      let blkCnt := Z.shiftr blockSize 2 in
      '(pInput, sum) <- sum_loop4 (Z.to_nat blkCnt) pInput sum ;;
      let blkCnt := blockSize mod 4 in
      '(_, sum) <- sum_loop1 (Z.to_nat blkCnt) pInput sum ;;
      ret sum
  | CM0_CM3 =>
      let blkCnt := blockSize in
      '(_, sum) <- sum_loop1 (Z.to_nat blkCnt) pInput sum ;;
      ret sum
  end.

(** Lines 146-185: the second pass; returns [fSum]. *)
Definition pass2 (a : arch) (blockSize : Z) (fMean : float32_t)
  : M float32_t :=
  let pInput := 0%nat in
  let fSum := F32.zero in
  match a with
  | CM4_CM7 =>
      let blkCnt := Z.shiftr blockSize 2 in
      '(pInput, fSum) <- dev_loop4 fMean (Z.to_nat blkCnt) pInput fSum ;;
      let blkCnt := blockSize mod 4 in
      '(_, fSum) <- dev_loop1 fMean (Z.to_nat blkCnt) pInput fSum ;;
      ret fSum
  | CM0_CM3 =>
      let blkCnt := blockSize in
      '(_, fSum) <- dev_loop1 fMean (Z.to_nat blkCnt) pInput fSum ;;
      ret fSum
  end.

(** Lines 97-185: both passes; returns the locals [fMean] and [fSum] as
    they stand before line 188. *)
Definition passes (a : arch) (blockSize : Z) : M (float32_t * float32_t) :=
  sum <- pass1 a blockSize ;;
  let fMean := F32.div sum (F32.of_Z blockSize) in
  fSum <- pass2 a blockSize fMean ;;
  ret (fMean, fSum).

(** Line 188: the divisor [(float32_t)(blockSize - 1.0f)].  [blockSize]
    is converted to float and [1.0f] is subtracted in float arithmetic. *)
Definition divisor (blockSize : Z) : float32_t :=
  F32.sub (F32.of_Z blockSize) F32.one.

(** Lines 77-189: the function, with [pResult] as a parameter. *)
Definition arm_var_f32_ptr (a : arch) (pResult : result_ptr) (blockSize : Z)
  : M unit :=
  if blockSize <=? 1 then
    store_at pResult (F32.of_Z 0)
  else
    '(_, fSum) <- passes a blockSize ;;
    store_at pResult (F32.div fSum (divisor blockSize)).

(** The call whose [pResult] points outside the array. *)
Definition arm_var_f32 (a : arch) (blockSize : Z) : M unit :=
  arm_var_f32_ptr a Outside blockSize.

(** The value found in [*pResult] after a call on the array [src], with
    [pResult] outside the array. *)
Definition var_result (a : arch) (src : list float32_t) (blockSize : Z)
  : option float32_t :=
  match arm_var_f32 a blockSize (initial src) with
  | Some (_, m) => m_result m
  | None => None
  end.

(** ** What the specification says

    The two-pass method in the specification's words: plain sequential
    sums from left to right, started at [0.0f]. *)

Definition sum_left (xs : list float32_t) : float32_t :=
  fold_left F32.add xs F32.zero.

Definition mean_of (xs : list float32_t) (n : Z) : float32_t :=
  F32.div (sum_left xs) (F32.of_Z n).

Definition sq_dev (mean x : float32_t) : float32_t :=
  F32.mul (F32.sub x mean) (F32.sub x mean).

Definition sq_dev_sum (mean : float32_t) (xs : list float32_t) : float32_t :=
  fold_left (fun acc x => F32.add acc (sq_dev mean x)) xs F32.zero.

(** The divisor is the integer [n - 1], converted to float32. *)
Definition two_pass_variance (xs : list float32_t) (n : Z) : float32_t :=
  F32.div (sq_dev_sum (mean_of xs n) xs) (F32.of_Z (n - 1)).

(** The same with the divisor the code computes, [(float) n - 1.0f]. *)
Definition two_pass_variance_fdiv (xs : list float32_t) (n : Z) : float32_t :=
  F32.div (sq_dev_sum (mean_of xs n) xs) (divisor n).

(** The value of a call as a function of the block and its size. *)
Definition variance_of (xs : list float32_t) (n : Z) : float32_t :=
  if n <=? 1 then F32.zero else two_pass_variance_fdiv xs n.

(** The two-sample formula [(a - b)^2 / 2], evaluated in float32. *)
Definition two_sample_formula (a b : float32_t) : float32_t :=
  F32.div (F32.mul (F32.sub a b) (F32.sub a b)) (F32.of_Z 2).

(** What the two passes compute on two elements [a], [b]:
    [((a - m)^2 + (b - m)^2) / 1.0f] with [m = (a + b) / 2.0f]. *)
Definition two_sample_two_pass (a b : float32_t) : float32_t :=
  let m := F32.div (F32.add (F32.add F32.zero a) b) (F32.of_Z 2) in
  F32.div (F32.add (F32.add F32.zero (sq_dev m a)) (sq_dev m b)) F32.one.

(** The first [blockSize] elements of the array. *)
Definition block (src : list float32_t) (blockSize : Z) : list float32_t :=
  firstn (Z.to_nat blockSize) src.

(** The loads of one pass over [n] elements, in program order. *)
Definition loads (n : nat) : list event := map EvLoad (seq 0 n).

Definition is_load (e : event) : bool :=
  match e with EvLoad _ => true | EvStore _ => false end.

(** ** Auxiliary definitions *)

(** The machine after some more events (most recent first). *)
Definition logged (l : list event) (m : machine) : machine :=
  {| m_src := m_src m; m_result := m_result m; m_log := l ++ m_log m |}.

(** All four loops of the function walk the array from left to right and
    fold one element at a time into an accumulator; [scan] is that loop
    for an arbitrary step, used to reason about the four. *)
Fixpoint scan (step : float32_t -> float32_t -> float32_t)
  (k : nat) (p : nat) (acc : float32_t) : M (nat * float32_t) :=
  match k with
  | O => ret (p, acc)
  | S k' => x <- load p ;; scan step k' (p + 1)%nat (step acc x)
  end.

Definition scan_value (step : float32_t -> float32_t -> float32_t)
  (n : nat) : M float32_t :=
  '(_, acc) <- scan step n 0%nat F32.zero ;; ret acc.

(** The step of the second pass. *)
Definition dev_step (fMean : float32_t) (acc x : float32_t) : float32_t :=
  F32.add acc (sq_dev fMean x).

(** The machine a successful call on at least two elements leaves. *)
Definition after_call (n : nat) (v : float32_t) (m : machine) : machine :=
  {| m_src := m_src m;
     m_result := Some v;
     m_log := EvStore v :: rev (loads n) ++ rev (loads n) ++ m_log m |}.

(** Which floats are positive and not zero: they divide [+0] to [+0]. *)
Definition positive_float (x : float32_t) : bool :=
  match x with
  | S754_finite false _ _ | S754_infinity false => true
  | _ => false
  end.

(** Positive floats of at least 2: a normal mantissa at an exponent of at
    least -22, or [+inf]. *)
Definition at_least_two (x : float32_t) : Prop :=
  match x with
  | S754_infinity false => True
  | S754_finite false m e => 2 ^ 23 <= Zpos m /\ -22 <= e
  | _ => False
  end.

(** The integers [lo, lo + 1, ..., lo + len - 1]. *)
Definition int_range (lo : Z) (len : nat) : list Z :=
  map (fun k => lo + Z.of_nat k) (seq 0 len).

(** ** Exact operations

    The numbers floats stand for, to say that an operation did not
    round. *)

(** The rational number a zero or finite float stands for. *)
Definition F2Q (x : float32_t) : Q :=
  match x with
  | S754_finite s m e => (inject_Z (cond_Zopp s (Zpos m)) * Qpower 2 e)%Q
  | _ => 0%Q
  end.

(** [op x y] is finite and is the exact result [qop] of the operation on
    the numbers [x] and [y] stand for: nothing was rounded. *)
Definition exact_op (op : float32_t -> float32_t -> float32_t)
  (qop : Q -> Q -> Q) (x y : float32_t) : bool :=
  F32.is_finite (op x y) && Qeq_bool (F2Q (op x y)) (qop (F2Q x) (F2Q y)).

(** No operation of the two passes over the two elements [a], [b]
    rounds. *)
Definition two_sample_exact (a b : float32_t) : bool :=
  let s1 := F32.add F32.zero a in
  let s2 := F32.add s1 b in
  let m := F32.div s2 (F32.of_Z 2) in
  let d1 := F32.sub a m in
  let q1 := F32.mul d1 d1 in
  let f1 := F32.add F32.zero q1 in
  let d2 := F32.sub b m in
  let q2 := F32.mul d2 d2 in
  let f2 := F32.add f1 q2 in
  F32.is_finite a && F32.is_finite b &&
  exact_op F32.add Qplus F32.zero a &&
  exact_op F32.add Qplus s1 b &&
  exact_op F32.div Qdiv s2 (F32.of_Z 2) &&
  exact_op F32.sub Qminus a m &&
  exact_op F32.mul Qmult d1 d1 &&
  exact_op F32.add Qplus F32.zero q1 &&
  exact_op F32.sub Qminus b m &&
  exact_op F32.mul Qmult d2 d2 &&
  exact_op F32.add Qplus f1 q2 &&
  exact_op F32.div Qdiv f2 F32.one.



(** ** Inputs of the scenarios *)

(** [9227469 * 2^-97], about [1.1 * 2^-74]: its square is below the
    smallest normal float32. *)
Definition small_a : float32_t := S754_finite false 9227469 (-97).

(** [0.5] and [1.75]. *)
Definition one_half : float32_t := S754_finite false 8388608 (-24).
Definition seven_quarters : float32_t := S754_finite false 14680064 (-23).


(** [2.0, 4.0, 4.0, 4.0, 5.0, 5.0, 7.0, 9.0] *)
Definition scenario_eight : list float32_t :=
  map F32.of_Z [2; 4; 4; 4; 5; 5; 7; 9].

(** The float after [1.0f], [1 + 2^-23]. *)
Definition next_after_one : float32_t := S754_finite false 8388609 (-23).

(** [2^24 + 1] elements: [1.0f] followed by zeros. *)
Definition big_size : Z := 16777217.
Definition big_input : list float32_t :=
  F32.one :: repeat F32.zero (Z.to_nat 16777216).

(** [2^-24], the float32 mean of [big_input]. *)
Definition big_mean : float32_t := S754_finite false 8388608 (-47).

(** ** Classes of floats *)

(** Zeros, infinities and finite numbers of sign [s]; NaN has no sign. *)
Definition signed_as (s : bool) (x : float32_t) : bool :=
  match x with
  | S754_zero t | S754_infinity t | S754_finite t _ _ => Bool.eqb s t
  | S754_nan => false
  end.

(** [+0.0], the positive finite numbers and [+inf]. *)
Definition nonneg (x : float32_t) : bool := signed_as false x.

Definition nonneg_or_nan (x : float32_t) : bool := F32.is_nan x || nonneg x.

(** The infinity of sign [s], or NaN. *)
Definition inf_or_nan (s : bool) (x : float32_t) : Prop :=
  x = S754_infinity s \/ x = F32.nan.

Definition is_zero (x : float32_t) : bool :=
  match x with S754_zero _ => true | _ => false end.

(** Some element is an infinity or a NaN. *)
Definition has_non_finite (xs : list float32_t) : bool :=
  existsb (fun x => negb (F32.is_finite x)) xs.

(** Equal, or two zeros that differ in sign at most. *)
Definition same_up_to_zero_sign (x y : float32_t) : Prop :=
  x = y \/ (is_zero x = true /\ is_zero y = true).

(** The array with its first two elements exchanged. *)
Definition swap_first_two (src : list float32_t) : list float32_t :=
  match src with
  | x :: y :: rest => y :: x :: rest
  | _ => src
  end.

(** * Proofs *)

(** ** Loads and logs *)

Lemma logged_nil m : logged [] m = m.
Proof. destruct m; reflexivity. Qed.

Lemma logged_logged l1 l2 m : logged l2 (logged l1 m) = logged (l2 ++ l1) m.
Proof. unfold logged; simpl. now rewrite app_assoc. Qed.

Lemma load_some i m x :
  nth_error (m_src m) i = Some x ->
  load i m = Some (x, logged [EvLoad i] m).
Proof. intros H. unfold load. now rewrite H. Qed.

Lemma load_none i m :
  nth_error (m_src m) i = None -> load i m = None.
Proof. intros H. unfold load. now rewrite H. Qed.

Lemma nth_error_skipn {A} (l : list A) : forall p,
  (p < length l)%nat ->
  exists x, nth_error l p = Some x /\ skipn p l = x :: skipn (S p) l.
Proof.
  induction l as [|y l IH]; intros p Hp; simpl in Hp; [lia|].
  destruct p as [|p].
  - exists y. split; reflexivity.
  - destruct (IH p) as (x & Hx & Hs); [lia|].
    exists x. split; [exact Hx|]. exact Hs.
Qed.

(** ** The generic scan *)

Section Scan.

Variable step : float32_t -> float32_t -> float32_t.

Lemma scan_split a : forall b p acc m,
  scan step (a + b) p acc m =
  ('(p', acc') <- scan step a p acc ;; scan step b p' acc') m.
Proof.
  induction a as [|a IH]; intros b p acc m.
  - reflexivity.
  - simpl. unfold bind. destruct (load p m) as [[x m']|]; [|reflexivity].
    rewrite IH. reflexivity.
Qed.

Lemma scan_run k : forall p acc m,
  (p + k <= length (m_src m))%nat ->
  scan step k p acc m =
  Some ((p + k)%nat,
        fold_left step (firstn k (skipn p (m_src m))) acc,
        logged (rev (map EvLoad (seq p k))) m).
Proof.
  induction k as [|k IH]; intros p acc m Hlen.
  - simpl. unfold ret. now rewrite Nat.add_0_r, logged_nil.
  - destruct (nth_error_skipn (m_src m) p) as (x & Hx & Hs); [lia|].
    simpl scan. unfold bind. rewrite (load_some _ _ _ Hx).
    rewrite IH by (simpl; lia).
    rewrite logged_logged. simpl m_src. rewrite Hs.
    cbn [firstn fold_left seq map rev].
    replace (p + 1)%nat with (S p) by lia.
    replace (S p + k)%nat with (p + S k)%nat by lia.
    reflexivity.
Qed.

Lemma scan_short k : forall p acc m,
  (p <= length (m_src m) < p + k)%nat -> scan step k p acc m = None.
Proof.
  induction k as [|k IH]; intros p acc m Hlen; [lia|].
  simpl. unfold bind.
  destruct (nth_error (m_src m) p) as [x|] eqn:Hx.
  - rewrite (load_some _ _ _ Hx). apply IH. simpl.
    assert (p < length (m_src m))%nat
      by (apply nth_error_Some; congruence).
    lia.
  - now rewrite (load_none _ _ Hx).
Qed.

Lemma scan_value_run (n : nat) m :
  (n <= length (m_src m))%nat ->
  scan_value step n m =
  Some (fold_left step (firstn n (m_src m)) F32.zero,
        logged (rev (loads n)) m).
Proof.
  intros H. unfold scan_value, bind.
  rewrite scan_run by (simpl; lia). reflexivity.
Qed.

Lemma scan_value_short (n : nat) m :
  (length (m_src m) < n)%nat -> scan_value step n m = None.
Proof.
  intros H. unfold scan_value, bind.
  rewrite scan_short by (simpl; lia). reflexivity.
Qed.

(** The two loop counters of the unrolled configuration add up to
    [blockSize]. *)
Lemma unrolled_counts (blockSize : Z) :
  0 <= blockSize ->
  (4 * Z.to_nat (Z.shiftr blockSize 2) + Z.to_nat (blockSize mod 4))%nat
  = Z.to_nat blockSize.
Proof.
  intros H. rewrite Z.shiftr_div_pow2 by lia.
  change (2 ^ 2) with 4.
  pose proof (Z.div_mod blockSize 4 ltac:(lia)).
  pose proof (Z.mod_pos_bound blockSize 4 ltac:(lia)).
  assert (0 <= blockSize / 4) by (apply Z.div_pos; lia).
  lia.
Qed.

Lemma unrolled_scan (blockSize : Z) m :
  0 <= blockSize ->
  ('(pInput, acc) <-
     scan step (4 * Z.to_nat (Z.shiftr blockSize 2)) 0%nat F32.zero ;;
   '(_, acc) <- scan step (Z.to_nat (blockSize mod 4)) pInput acc ;;
   ret acc) m
  = scan_value step (Z.to_nat blockSize) m.
Proof.
  intros H. unfold scan_value.
  rewrite <- (unrolled_counts blockSize H).
  unfold bind at 3. rewrite scan_split. unfold bind.
  destruct (scan step _ 0%nat F32.zero m) as [[[p acc] m1]|]; reflexivity.
Qed.

End Scan.

(** ** The four loops are scans *)

Lemma sum_loop1_scan k : forall p sum m,
  sum_loop1 k p sum m = scan F32.add k p sum m.
Proof.
  induction k as [|k IH]; intros p sum m; simpl; [reflexivity|].
  unfold bind. destruct (load p m) as [[x m']|]; [apply IH|reflexivity].
Qed.

Lemma dev_loop1_scan fMean k : forall p fSum m,
  dev_loop1 fMean k p fSum m = scan (dev_step fMean) k p fSum m.
Proof.
  induction k as [|k IH]; intros p fSum m; simpl; [reflexivity|].
  unfold bind. destruct (load p m) as [[x m']|]; [apply IH|reflexivity].
Qed.

(** Four loads in a row, as one turn of an unrolled loop performs them. *)
Ltac four_loads p m :=
  let x1 := fresh "x" in let m1 := fresh "m" in
  let x2 := fresh "x" in let m2 := fresh "m" in
  let x3 := fresh "x" in let m3 := fresh "m" in
  let x4 := fresh "x" in let m4 := fresh "m" in
  destruct (load p m) as [[x1 m1]|]; [|reflexivity];
  replace (p + 1 + 1)%nat with (p + 2)%nat by lia;
  destruct (load (p + 1) m1) as [[x2 m2]|]; [|reflexivity];
  replace (p + 2 + 1)%nat with (p + 3)%nat by lia;
  destruct (load (p + 2) m2) as [[x3 m3]|]; [|reflexivity];
  replace (p + 3 + 1)%nat with (p + 4)%nat by lia;
  destruct (load (p + 3) m3) as [[x4 m4]|]; [|reflexivity].

(** One turn of an unrolled loop is four turns of the single-element
    loop: the same loads and the same additions in the same order. *)
Lemma sum_loop4_scan k : forall p sum m,
  sum_loop4 k p sum m = scan F32.add (4 * k) p sum m.
Proof.
  induction k as [|k IH]; intros p sum m; [reflexivity|].
  replace (4 * S k)%nat with (S (S (S (S (4 * k))))) by lia.
  cbn [sum_loop4 scan]. unfold bind.
  four_loads p m. apply IH.
Qed.

Lemma dev_loop4_scan fMean k : forall p fSum m,
  dev_loop4 fMean k p fSum m = scan (dev_step fMean) (4 * k) p fSum m.
Proof.
  induction k as [|k IH]; intros p fSum m; [reflexivity|].
  replace (4 * S k)%nat with (S (S (S (S (4 * k))))) by lia.
  cbn [dev_loop4 scan]. unfold bind.
  four_loads p m. apply IH.
Qed.

Lemma pass1_scan a blockSize m :
  0 <= blockSize ->
  pass1 a blockSize m = scan_value F32.add (Z.to_nat blockSize) m.
Proof.
  intros H. destruct a; unfold pass1.
  - unfold scan_value, bind. rewrite sum_loop1_scan. reflexivity.
  - rewrite <- (unrolled_scan F32.add blockSize m H).
    unfold bind. rewrite sum_loop4_scan.
    destruct (scan F32.add _ 0%nat F32.zero m) as [[[p acc] m1]|];
      [|reflexivity].
    rewrite sum_loop1_scan. reflexivity.
Qed.

Lemma pass2_scan a blockSize fMean m :
  0 <= blockSize ->
  pass2 a blockSize fMean m
  = scan_value (dev_step fMean) (Z.to_nat blockSize) m.
Proof.
  intros H. destruct a; unfold pass2.
  - unfold scan_value, bind. rewrite dev_loop1_scan. reflexivity.
  - rewrite <- (unrolled_scan (dev_step fMean) blockSize m H).
    unfold bind. rewrite dev_loop4_scan.
    destruct (scan (dev_step fMean) _ 0%nat F32.zero m) as [[[p acc] m1]|];
      [|reflexivity].
    rewrite dev_loop1_scan. reflexivity.
Qed.

(** ** Runs of the function *)

Lemma passes_run a blockSize m :
  0 <= blockSize ->
  (Z.to_nat blockSize <= length (m_src m))%nat ->
  passes a blockSize m =
  Some (mean_of (block (m_src m) blockSize) blockSize,
        sq_dev_sum (mean_of (block (m_src m) blockSize) blockSize)
                   (block (m_src m) blockSize),
        logged (rev (loads (Z.to_nat blockSize)) ++
                rev (loads (Z.to_nat blockSize))) m).
Proof.
  intros H0 Hlen. unfold passes, bind.
  rewrite pass1_scan, scan_value_run by assumption.
  rewrite pass2_scan, scan_value_run by assumption.
  rewrite logged_logged. reflexivity.
Qed.

Lemma arm_var_f32_run a blockSize m :
  2 <= blockSize ->
  (Z.to_nat blockSize <= length (m_src m))%nat ->
  arm_var_f32 a blockSize m =
  Some (tt, after_call (Z.to_nat blockSize)
              (two_pass_variance_fdiv (block (m_src m) blockSize) blockSize) m).
Proof.
  intros H2 Hlen. unfold arm_var_f32, arm_var_f32_ptr.
  destruct (Z.leb_spec blockSize 1) as [?|_]; [lia|].
  unfold bind. rewrite passes_run by (assumption || lia).
  unfold store_at, after_call, logged; simpl.
  rewrite <- app_assoc. reflexivity.
Qed.

Lemma arm_var_f32_short a blockSize m :
  2 <= blockSize ->
  (length (m_src m) < Z.to_nat blockSize)%nat ->
  arm_var_f32 a blockSize m = None.
Proof.
  intros H2 Hlen. unfold arm_var_f32, arm_var_f32_ptr.
  destruct (Z.leb_spec blockSize 1) as [?|_]; [lia|].
  unfold bind, passes, bind.
  rewrite pass1_scan, scan_value_short by (assumption || lia).
  reflexivity.
Qed.

Lemma arm_var_f32_small a blockSize m :
  blockSize <= 1 ->
  arm_var_f32 a blockSize m =
  Some (tt, {| m_src := m_src m;
               m_result := Some F32.zero;
               m_log := EvStore F32.zero :: m_log m |}).
Proof.
  intros H. unfold arm_var_f32, arm_var_f32_ptr.
  destruct (Z.leb_spec blockSize 1) as [_|?]; [|lia].
  reflexivity.
Qed.

Lemma var_result_run a src blockSize :
  2 <= blockSize ->
  (Z.to_nat blockSize <= length src)%nat ->
  var_result a src blockSize =
  Some (two_pass_variance_fdiv (block src blockSize) blockSize).
Proof.
  intros H2 Hlen. unfold var_result.
  rewrite arm_var_f32_run by assumption. reflexivity.
Qed.

(** ** Propagation of NaN through the two folds *)

Lemma add_nan_l x : F32.add F32.nan x = F32.nan.
Proof. reflexivity. Qed.

Lemma add_nan_r x : F32.add x F32.nan = F32.nan.
Proof. destruct x; reflexivity. Qed.

Lemma sub_nan_r x : F32.sub x F32.nan = F32.nan.
Proof. destruct x; reflexivity. Qed.

Lemma div_nan_l y : F32.div F32.nan y = F32.nan.
Proof. reflexivity. Qed.

Lemma sq_dev_nan_mean x : sq_dev F32.nan x = F32.nan.
Proof. unfold sq_dev. now rewrite sub_nan_r. Qed.

Lemma is_nan_eq x : F32.is_nan x = true -> x = F32.nan.
Proof. destruct x; simpl; intros H; (discriminate || reflexivity). Qed.

Lemma fold_add_from_nan xs : fold_left F32.add xs F32.nan = F32.nan.
Proof. induction xs as [|x xs IH]; simpl; [reflexivity|exact IH]. Qed.

Lemma fold_add_nan xs : forall acc,
  In F32.nan xs -> fold_left F32.add xs acc = F32.nan.
Proof.
  induction xs as [|x xs IH]; intros acc Hin; [destruct Hin|].
  cbn [fold_left]. destruct Hin as [->|Hin].
  - rewrite add_nan_r. apply fold_add_from_nan.
  - now apply IH.
Qed.

Lemma fold_dev_from_nan mean xs :
  fold_left (fun acc x => F32.add acc (sq_dev mean x)) xs F32.nan = F32.nan.
Proof. induction xs as [|x xs IH]; simpl; [reflexivity|exact IH]. Qed.

Lemma sq_dev_sum_nan_mean xs :
  xs <> [] -> sq_dev_sum F32.nan xs = F32.nan.
Proof.
  destruct xs as [|x xs]; [congruence|]. intros _.
  unfold sq_dev_sum. cbn [fold_left]. rewrite sq_dev_nan_mean, add_nan_r.
  apply fold_dev_from_nan.
Qed.

Lemma two_pass_nan xs n :
  In F32.nan xs -> two_pass_variance_fdiv xs n = F32.nan.
Proof.
  intros Hin. unfold two_pass_variance_fdiv, mean_of, sum_left.
  rewrite (fold_add_nan xs _ Hin), div_nan_l.
  rewrite sq_dev_sum_nan_mean; [reflexivity|].
  intros ->. destruct Hin.
Qed.

(** ** A fold over a run of equal elements that the accumulator absorbs *)

Lemma fold_left_absorb {A B} (f : A -> B -> A) (acc : A) (x : B) (k : nat) :
  f acc x = acc -> fold_left f (repeat x k) acc = acc.
Proof.
  intros H. induction k as [|k IH]; simpl; [reflexivity|].
  now rewrite H.
Qed.

Lemma fold_left_const {A B} (f : A -> B -> A) (acc : A) (c : B) (xs : list B) :
  (forall x, In x xs -> x = c) -> f acc c = acc -> fold_left f xs acc = acc.
Proof.
  intros Hc H. induction xs as [|x xs IH]; simpl; [reflexivity|].
  rewrite (Hc x) by (left; reflexivity). rewrite H.
  apply IH. intros y Hy. apply Hc. now right.
Qed.

(** ** Rounding to binary32

    Facts about [SpecFloat]'s rounding at precision 24, for the divisor
    [(float32_t)(blockSize - 1.0f)]: it is positive from [blockSize = 2]
    on, and it is [blockSize - 1] up to [blockSize = 2^24]. *)

Lemma digits2_pos_bounds p :
  2 ^ (Zpos (digits2_pos p) - 1) <= Zpos p < 2 ^ Zpos (digits2_pos p).
Proof.
  induction p as [p IH|p IH|]; cbn [digits2_pos].
  - rewrite Pos2Z.inj_succ.
    replace (Z.succ (Zpos (digits2_pos p)) - 1)
      with (Z.succ (Zpos (digits2_pos p) - 1)) by lia.
    rewrite !Z.pow_succ_r by lia. lia.
  - rewrite Pos2Z.inj_succ.
    replace (Z.succ (Zpos (digits2_pos p)) - 1)
      with (Z.succ (Zpos (digits2_pos p) - 1)) by lia.
    rewrite !Z.pow_succ_r by lia. lia.
  - simpl. lia.
Qed.

Lemma iter_pos_nat {A} (f : A -> A) p : forall x,
  iter_pos f p x = Nat.iter (Pos.to_nat p) f x.
Proof.
  induction p as [p IH|p IH|]; intros x; cbn [iter_pos].
  - rewrite !IH, Pos2Nat.inj_xI.
    replace (S (2 * Pos.to_nat p)) with (Pos.to_nat p + (Pos.to_nat p + 1))%nat by lia.
    rewrite !Nat.iter_add. reflexivity.
  - rewrite !IH, Pos2Nat.inj_xO.
    replace (2 * Pos.to_nat p)%nat with (Pos.to_nat p + Pos.to_nat p)%nat by lia.
    rewrite Nat.iter_add. reflexivity.
  - reflexivity.
Qed.

Lemma shr_1_m r : 0 <= shr_m r -> shr_m (shr_1 r) = shr_m r / 2.
Proof.
  destruct r as [m r s]. cbn [shr_m shr_1]. intros H.
  destruct m as [|[p|p|]|p]; cbn [shr_m]; try lia.
  - reflexivity.
  - rewrite Pos2Z.inj_xI. apply Z.div_unique with 1; lia.
  - rewrite Pos2Z.inj_xO. apply Z.div_unique with 0; lia.
  - reflexivity.
Qed.

Lemma shr_iter_m k : forall r, 0 <= shr_m r ->
  shr_m (Nat.iter k shr_1 r) = shr_m r / 2 ^ Z.of_nat k.
Proof.
  induction k as [|k IH]; intros r H.
  - simpl. now rewrite Z.div_1_r.
  - rewrite Nat2Z.inj_succ, Z.pow_succ_r by lia.
    rewrite Nat.iter_succ, shr_1_m.
    + rewrite IH by assumption. rewrite Z.div_div by lia. f_equal. lia.
    + rewrite IH by assumption. apply Z.div_pos; lia.
Qed.

Lemma iter_xO_value m d : Zpos (Pos.iter xO m d) = Zpos m * 2 ^ Zpos d.
Proof.
  induction d as [|d IH] using Pos.peano_ind.
  - simpl. lia.
  - rewrite Pos.iter_succ, Pos2Z.inj_xO, IH, Pos2Z.inj_succ, Z.pow_succ_r by lia.
    lia.
Qed.

Lemma shr_record_of_loc_m m l : shr_m (shr_record_of_loc m l) = m.
Proof. destruct l as [|[]]; reflexivity. Qed.

Lemma fexp32 e : fexp 24 128 e = Z.max (e - 24) (-149).
Proof. reflexivity. Qed.

(** Shifting a mantissa of at least 24 bits down to its format keeps 24
    bits, and never lowers the exponent. *)
Lemma shr_fexp_normal m e l r e' :
  -149 <= e -> 2 ^ 23 <= Zpos m ->
  shr_fexp 24 128 (Zpos m) e l = (r, e') ->
  2 ^ 23 <= shr_m r /\ e <= e'.
Proof.
  intros He Hm. unfold shr_fexp, shr. cbn [Zdigits2]. rewrite fexp32.
  pose proof (digits2_pos_bounds m) as [Hlo Hhi].
  destruct (Z.max (Zpos (digits2_pos m) + e - 24) (-149) - e) as [|k|k] eqn:Hk;
    intros [= <- <-].
  - rewrite shr_record_of_loc_m. lia.
  - rewrite iter_pos_nat, shr_iter_m by (rewrite shr_record_of_loc_m; lia).
    rewrite shr_record_of_loc_m, positive_nat_Z.
    assert (Hd : Zpos k = Zpos (digits2_pos m) - 24) by lia.
    split; [|lia].
    apply Z.div_le_lower_bound; [apply Z.pow_pos_nonneg; lia|].
    rewrite <- Z.pow_add_r by lia.
    replace (Zpos k + 23) with (Zpos (digits2_pos m) - 1) by lia.
    exact Hlo.
  - rewrite shr_record_of_loc_m. lia.
Qed.

Lemma round_nearest_even_ge m l : m <= round_nearest_even m l.
Proof.
  destruct l as [|[]]; cbn [round_nearest_even]; try lia.
  destruct (Z.even m); lia.
Qed.

Lemma binary_round_aux_normal m e l :
  -149 <= e -> 2 ^ 23 <= Zpos m ->
  binary_round_aux 24 128 false (Zpos m) e l = S754_infinity false \/
  exists m' e',
    binary_round_aux 24 128 false (Zpos m) e l = S754_finite false m' e' /\
    2 ^ 23 <= Zpos m' /\ e <= e'.
Proof.
  intros He Hm. unfold binary_round_aux.
  destruct (shr_fexp 24 128 (Zpos m) e l) as [r1 e1] eqn:E1.
  destruct (shr_fexp_normal _ _ _ _ _ He Hm E1) as [Hm1 He1].
  pose proof (round_nearest_even_ge (shr_m r1) (loc_of_shr_record r1)) as Hr.
  destruct (round_nearest_even (shr_m r1) (loc_of_shr_record r1))
    as [|m2|m2]; try lia.
  destruct (shr_fexp 24 128 (Zpos m2) e1 loc_Exact) as [r2 e2] eqn:E2.
  destruct (shr_fexp_normal m2 e1 loc_Exact r2 e2) as [Hm2 He2];
    [lia|lia|exact E2|].
  destruct (shr_m r2) as [|m3|m3]; try lia.
  destruct (e2 <=? 128 - 24); [right|left; reflexivity].
  exists m3, e2. repeat split; lia.
Qed.

Lemma shl_align_spec m ex ex' mz ez :
  shl_align m ex ex' = (mz, ez) ->
  Zpos mz = Zpos m * 2 ^ (ex - ez) /\ ez = Z.min ex ex'.
Proof.
  unfold shl_align.
  destruct (ex' - ex) as [|d|d] eqn:Hd; intros [= <- <-].
  - rewrite Z.sub_diag. simpl. lia.
  - rewrite Z.sub_diag. simpl. lia.
  - rewrite iter_xO_value. replace (ex - ex') with (Zpos d) by lia. lia.
Qed.

Lemma of_Z_at_least_two n : 2 <= n -> at_least_two (F32.of_Z n).
Proof.
  intros Hn. destruct n as [|p|p]; try lia.
  change (F32.of_Z (Zpos p)) with (binary_round 24 128 false p 0).
  unfold binary_round.
  destruct (shl_align p 0 _) as [mz ez] eqn:Hs.
  apply shl_align_spec in Hs. destruct Hs as [Hv He].
  rewrite fexp32 in He.
  pose proof (digits2_pos_bounds p) as [Hlo Hhi].
  assert (Hd : 2 <= Zpos (digits2_pos p)).
  { destruct (digits2_pos p) as [d|d|]; lia. }
  assert (Hmz : 2 ^ 23 <= Zpos mz).
  { rewrite Hv.
    apply Z.le_trans with (2 ^ (Zpos (digits2_pos p) - 1) * 2 ^ (0 - ez)).
    - rewrite <- Z.pow_add_r by lia. apply Z.pow_le_mono_r; lia.
    - apply Z.mul_le_mono_nonneg_r; [apply Z.pow_nonneg; lia|exact Hlo]. }
  destruct (binary_round_aux_normal mz ez loc_Exact)
    as [->|(m' & e' & -> & ? & ?)]; [lia|exact Hmz|exact I|].
  split; lia.
Qed.

Lemma digits2_pos_unique x d :
  2 ^ (d - 1) <= Zpos x < 2 ^ d -> Zpos (digits2_pos x) = d.
Proof.
  intros [Hlo Hhi]. pose proof (digits2_pos_bounds x) as [Hlo' Hhi'].
  assert (0 < d).
  { destruct d as [|d|d]; [simpl in Hhi; lia|lia|simpl in Hhi; lia]. }
  destruct (Z.lt_trichotomy (Zpos (digits2_pos x)) d) as [Hlt|[Heq|Hgt]];
    [exfalso|exact Heq|exfalso].
  - assert (2 ^ Zpos (digits2_pos x) <= 2 ^ (d - 1))
      by (apply Z.pow_le_mono_r; lia). lia.
  - assert (2 ^ d <= 2 ^ (Zpos (digits2_pos x) - 1))
      by (apply Z.pow_le_mono_r; lia). lia.
Qed.

Lemma shr_exact_nat j : forall m,
  Nat.iter j shr_1 (Build_shr_record (Zpos (Nat.iter j xO m)) false false)
  = Build_shr_record (Zpos m) false false.
Proof.
  induction j as [|j IH]; intros m; [reflexivity|].
  rewrite Nat.iter_succ_r. rewrite Nat.iter_succ. cbn [shr_1 orb].
  apply IH.
Qed.

Lemma shr_exact kp m :
  iter_pos shr_1 kp (Build_shr_record (Zpos (Pos.iter xO m kp)) false false)
  = Build_shr_record (Zpos m) false false.
Proof.
  rewrite iter_pos_nat, Pos2Nat.inj_iter. apply shr_exact_nat.
Qed.

(** Rounding a number that fits the format is exact: a mantissa
    [m * 2^k] at exponent [E], where [m] is canonical at [E + k]. *)
Lemma binary_round_aux_exact s M E m k :
  0 <= k -> Zpos M = Zpos m * 2 ^ k ->
  canonical_mantissa 24 128 m (E + k) = true -> E + k <= 104 ->
  binary_round_aux 24 128 s (Zpos M) E loc_Exact = S754_finite s m (E + k).
Proof.
  intros Hk HM Hc He. unfold canonical_mantissa in Hc.
  apply Z.eqb_eq in Hc.
  assert (HdM : Zpos (digits2_pos M) = Zpos (digits2_pos m) + k).
  { apply digits2_pos_unique. rewrite HM.
    pose proof (digits2_pos_bounds m) as [Hlo Hhi].
    replace (Zpos (digits2_pos m) + k - 1) with (Zpos (digits2_pos m) - 1 + k) by lia.
    rewrite !Z.pow_add_r by lia.
    assert (0 < 2 ^ k) by (apply Z.pow_pos_nonneg; lia). nia. }
  assert (Hstep2 : shr_fexp 24 128 (Zpos m) (E + k) loc_Exact
                   = (Build_shr_record (Zpos m) false false, E + k)).
  { unfold shr_fexp. cbn [Zdigits2]. rewrite Hc, Z.sub_diag. reflexivity. }
  assert (Hstep1 : shr_fexp 24 128 (Zpos M) E loc_Exact
                   = (Build_shr_record (Zpos m) false false, E + k)).
  { unfold shr_fexp. cbn [Zdigits2]. rewrite HdM.
    replace (Zpos (digits2_pos m) + k + E) with (Zpos (digits2_pos m) + (E + k)) by lia.
    rewrite Hc. replace (E + k - E) with k by lia.
    destruct k as [|kp|kp]; try lia.
    - rewrite Z.add_0_r. simpl in HM. replace M with m by lia. reflexivity.
    - cbn [shr shr_record_of_loc].
      assert (M = Pos.iter xO m kp) as ->
        by (apply Pos2Z.inj; now rewrite iter_xO_value).
      now rewrite shr_exact. }
  unfold binary_round_aux. rewrite Hstep1.
  cbn [shr_m loc_of_shr_record round_nearest_even]. rewrite Hstep2.
  cbn [shr_m]. change (128 - 24) with 104.
  destruct (Z.leb_spec (E + k) 104); [reflexivity|lia].
Qed.

(** The float of an integer of at most 24 bits. *)
Lemma of_Z_small p mz :
  Zpos (digits2_pos p) <= 24 ->
  Zpos mz = Zpos p * 2 ^ (24 - Zpos (digits2_pos p)) ->
  F32.of_Z (Zpos p) = S754_finite false mz (Zpos (digits2_pos p) - 24).
Proof.
  intros Hd Hmz.
  change (F32.of_Z (Zpos p)) with (binary_round 24 128 false p 0).
  unfold binary_round.
  destruct (shl_align p 0 _) as [mz' ez] eqn:Hs.
  apply shl_align_spec in Hs. destruct Hs as [Hv He].
  rewrite fexp32 in He.
  assert (Hez : ez = Zpos (digits2_pos p) - 24) by lia.
  clear He. subst ez.
  assert (mz' = mz) as ->.
  { apply Pos2Z.inj. rewrite Hv, Hmz. f_equal. f_equal. lia. }
  pose proof (digits2_pos_bounds p) as [Hlo Hhi].
  assert (Hdz : Zpos (digits2_pos mz) = 24).
  { apply digits2_pos_unique. rewrite Hmz. change (24 - 1) with 23.
    assert (Hp1 : 2 ^ 23 = 2 ^ (Zpos (digits2_pos p) - 1)
                           * 2 ^ (24 - Zpos (digits2_pos p)))
      by (rewrite <- Z.pow_add_r by lia; f_equal; lia).
    assert (Hp2 : 2 ^ 24 = 2 ^ Zpos (digits2_pos p)
                           * 2 ^ (24 - Zpos (digits2_pos p)))
      by (rewrite <- Z.pow_add_r by lia; f_equal; lia).
    assert (0 < 2 ^ (24 - Zpos (digits2_pos p))) by (apply Z.pow_pos_nonneg; lia).
    split; [rewrite Hp1|rewrite Hp2]; nia. }
  rewrite (binary_round_aux_exact false mz (Zpos (digits2_pos p) - 24) mz 0);
    try lia.
  - now rewrite Z.add_0_r.
  - unfold canonical_mantissa. rewrite Hdz, fexp32. apply Z.eqb_eq. lia.
Qed.

Lemma scaled_positive p k : 0 <= k -> exists mz, Zpos mz = Zpos p * 2 ^ k.
Proof.
  intros Hk. exists (Z.to_pos (Zpos p * 2 ^ k)).
  rewrite Z2Pos.id; [reflexivity|].
  assert (0 < 2 ^ k) by (apply Z.pow_pos_nonneg; lia). lia.
Qed.

(** [x - 1.0f] for a normal [x] of exponent at least -22 rounds the
    exact difference, taken at exponent -23. *)
Lemma sub_one_round m e :
  2 ^ 23 <= Zpos m -> -22 <= e ->
  exists q, Zpos q = Zpos m * 2 ^ (e + 23) - 2 ^ 23 /\
            2 ^ 23 <= Zpos q /\
            F32.sub (S754_finite false m e) F32.one
            = binary_round 24 128 false q (-23).
Proof.
  intros Hm He.
  change F32.one with (S754_finite false 8388608 (-23)).
  unfold F32.sub, F32.prec, F32.emax, SFsub.
  replace (Z.min e (-23)) with (-23) by lia.
  destruct (shl_align m e (-23)) as [mz ez] eqn:Hs.
  apply shl_align_spec in Hs. destruct Hs as [Hv Hez].
  assert (Hez' : ez = -23) by lia. clear Hez. subst ez.
  change (shl_align 8388608 (-23) (-23)) with (8388608%positive, -23).
  cbn [fst cond_Zopp].
  assert (Hbig : 2 ^ 24 <= Zpos mz).
  { rewrite Hv. change (2 ^ 24) with (2 ^ 23 * 2 ^ 1).
    apply Z.mul_le_mono_nonneg; try lia.
    apply Z.pow_le_mono_r; lia. }
  destruct (Zpos mz - 8388608) as [|q|q] eqn:Hq; try lia.
  exists q. repeat split.
  - rewrite <- Hq, Hv. replace (e - -23) with (e + 23) by lia. reflexivity.
  - lia.
Qed.

(** [x - 1.0f] for a float [x] of at least 2 is positive. *)
Lemma sub_one_positive x :
  at_least_two x -> positive_float (F32.sub x F32.one) = true.
Proof.
  destruct x as [s|[|]| |[|] m e]; cbn [at_least_two]; try contradiction.
  - reflexivity.
  - intros [Hm He].
    destruct (sub_one_round m e Hm He) as (q & _ & Hq & ->).
    unfold binary_round.
    destruct (shl_align q (-23) _) as [mq eq] eqn:Hs.
    apply shl_align_spec in Hs. destruct Hs as [Hv Heq].
    rewrite fexp32 in Heq.
    assert (Hmq : 2 ^ 23 <= Zpos mq).
    { rewrite Hv. apply Z.le_trans with (Zpos q * 1); [lia|].
      apply Z.mul_le_mono_nonneg_l; [lia|].
      assert (0 < 2 ^ (-23 - eq)) by (apply Z.pow_pos_nonneg; lia). lia. }
    destruct (binary_round_aux_normal mq eq loc_Exact)
      as [->|(m' & e' & -> & ? & ?)]; [lia|exact Hmq|reflexivity|reflexivity].
Qed.

Lemma divisor_positive n : 2 <= n -> positive_float (divisor n) = true.
Proof. intros H. apply sub_one_positive, of_Z_at_least_two, H. Qed.

Lemma div_zero_positive y :
  positive_float y = true -> F32.div F32.zero y = F32.zero.
Proof.
  destruct y as [s|[|]| |[|] m e]; simpl; intros H;
    (discriminate || reflexivity).
Qed.

Lemma binary_round_shifted q p :
  Zpos (digits2_pos p) <= 24 -> Zpos q = Zpos p * 2 ^ 23 ->
  binary_round 24 128 false q (-23) = F32.of_Z (Zpos p).
Proof.
  intros Hd Hq.
  pose proof (digits2_pos_bounds p) as [Hlo Hhi].
  pose proof (Pos2Z.is_pos (digits2_pos p)) as Hdp.
  destruct (scaled_positive p (24 - Zpos (digits2_pos p))) as [mz Hmz]; [lia|].
  rewrite (of_Z_small p mz Hd Hmz).
  assert (Hdq : Zpos (digits2_pos q) = Zpos (digits2_pos p) + 23).
  { apply digits2_pos_unique. rewrite Hq.
    replace (Zpos (digits2_pos p) + 23 - 1) with (Zpos (digits2_pos p) - 1 + 23) by lia.
    rewrite !Z.pow_add_r by lia. lia. }
  assert (Hdz : Zpos (digits2_pos mz) = 24).
  { apply digits2_pos_unique. rewrite Hmz. change (24 - 1) with 23.
    assert (Hp1 : 2 ^ 23 = 2 ^ (Zpos (digits2_pos p) - 1)
                           * 2 ^ (24 - Zpos (digits2_pos p)))
      by (rewrite <- Z.pow_add_r by lia; f_equal; lia).
    assert (Hp2 : 2 ^ 24 = 2 ^ Zpos (digits2_pos p)
                           * 2 ^ (24 - Zpos (digits2_pos p)))
      by (rewrite <- Z.pow_add_r by lia; f_equal; lia).
    assert (0 < 2 ^ (24 - Zpos (digits2_pos p))) by (apply Z.pow_pos_nonneg; lia).
    split; [rewrite Hp1|rewrite Hp2]; nia. }
  unfold binary_round.
  destruct (shl_align q (-23) _) as [mq eq] eqn:Hs.
  apply shl_align_spec in Hs. destruct Hs as [Hv He].
  rewrite fexp32, Hdq in He.
  assert (Heq : eq = -23) by lia. clear He. subst eq.
  assert (mq = q) as -> by (change (-23 - -23) with 0 in Hv; simpl in Hv; lia).
  rewrite (binary_round_aux_exact false q (-23) mz (Zpos (digits2_pos p) - 1));
    try lia.
  - f_equal. lia.
  - rewrite Hq, Hmz, <- Z.mul_assoc, <- Z.pow_add_r by lia.
    f_equal. f_equal. lia.
  - unfold canonical_mantissa. rewrite Hdz, fexp32. apply Z.eqb_eq. lia.
Qed.

(** Up to [2^24] elements the divisor of the code is [blockSize - 1],
    converted to float32. *)
Lemma divisor_exact n : 2 <= n <= 2 ^ 24 -> divisor n = F32.of_Z (n - 1).
Proof.
  intros [Hlo Hhi].
  destruct (Z.eq_dec n (2 ^ 24)) as [->|Hne]; [reflexivity|].
  destruct n as [|p|p]; try lia.
  pose proof (digits2_pos_bounds p) as [Hplo Hphi].
  assert (Hd : Zpos (digits2_pos p) <= 24).
  { destruct (Z.le_gt_cases (Zpos (digits2_pos p)) 24) as [H|H]; [exact H|].
    assert (2 ^ 24 <= 2 ^ (Zpos (digits2_pos p) - 1))
      by (apply Z.pow_le_mono_r; lia). lia. }
  assert (Hd2 : 2 <= Zpos (digits2_pos p)).
  { destruct (digits2_pos p) as [d|d|]; lia. }
  destruct (scaled_positive p (24 - Zpos (digits2_pos p))) as [mz Hmz]; [lia|].
  unfold divisor. rewrite (of_Z_small p mz Hd Hmz).
  assert (Hnorm : 2 ^ 23 <= Zpos mz).
  { rewrite Hmz.
    apply Z.le_trans with (2 ^ (Zpos (digits2_pos p) - 1)
                           * 2 ^ (24 - Zpos (digits2_pos p))).
    - rewrite <- Z.pow_add_r by lia. apply Z.pow_le_mono_r; lia.
    - apply Z.mul_le_mono_nonneg_r; [apply Z.pow_nonneg; lia|exact Hplo]. }
  destruct (sub_one_round mz (Zpos (digits2_pos p) - 24) Hnorm ltac:(lia))
    as (q & Hq & _ & ->).
  destruct (Zpos p - 1) as [|p'|p'] eqn:Hp'; try lia.
  apply binary_round_shifted.
  - pose proof (digits2_pos_bounds p') as [Hlo' _].
    destruct (Z.le_gt_cases (Zpos (digits2_pos p')) 24) as [H|H]; [exact H|].
    assert (2 ^ 24 <= 2 ^ (Zpos (digits2_pos p') - 1))
      by (apply Z.pow_le_mono_r; lia). lia.
  - rewrite Hq, Hmz, <- Z.mul_assoc, <- Z.pow_add_r by lia.
    replace (24 - Zpos (digits2_pos p) + (Zpos (digits2_pos p) - 24 + 23)) with 23 by lia.
    lia.
Qed.

(** * Properties of [arm_var_f32] *)

(** ** The two-pass formula *)

(** The two passes over [1.0f] followed by [k] zeros: the sum stays at
    [1.0f], and with the mean [2^-24] the squared deviations of the zeros
    are absorbed by the accumulator [1 - 2^-23]. *)
Lemma sum_left_one_zeros k :
  sum_left (F32.one :: repeat F32.zero k) = F32.one.
Proof.
  unfold sum_left. cbn [fold_left].
  rewrite fold_left_absorb; reflexivity.
Qed.

Lemma sq_dev_sum_one_zeros k :
  sq_dev_sum big_mean (F32.one :: repeat F32.zero k)
  = S754_finite false 16777214 (-24).
Proof.
  unfold sq_dev_sum. cbn [fold_left].
  rewrite fold_left_absorb; reflexivity.
Qed.

Lemma one_zeros_length k : length (F32.one :: repeat F32.zero k) = S k.
Proof. cbn [length]. now rewrite repeat_length. Qed.

Lemma big_input_length : length big_input = Z.to_nat big_size.
Proof.
  unfold big_input, big_size. rewrite one_zeros_length.
  symmetry. apply (Z2Nat.inj_succ 16777216). lia.
Qed.

Lemma big_input_block : block big_input big_size = big_input.
Proof.
  unfold block. apply firstn_all2. rewrite big_input_length. apply Nat.le_refl.
Qed.

(** C1, as stated, fails at [blockSize = 2^24 + 1]: [(float) blockSize]
    is [2^24], so the code divides by [2^24 - 1.0f = 16777215], while
    [blockSize - 1] is [16777216].  On [1.0f] followed by [2^24] zeros the
    code writes [16777215 * 2^-48]; the formula with [blockSize - 1] gives
    [16777214 * 2^-48]. *)
Lemma two_pass_divisor_counterexample :
  forallb F32.valid [F32.one; F32.zero] = true /\
  divisor big_size = S754_finite false 16777215 0 /\
  F32.of_Z (big_size - 1) = S754_finite false 8388608 1 /\
  var_result CM4_CM7 big_input big_size
  = Some (S754_finite false 16777215 (-48)) /\
  var_result CM0_CM3 big_input big_size
  = Some (S754_finite false 16777215 (-48)) /\
  two_pass_variance (block big_input big_size) big_size
  = S754_finite false 16777214 (-48) /\
  var_result CM4_CM7 big_input big_size
  <> Some (two_pass_variance (block big_input big_size) big_size).
Proof.
  assert (Hlen : (Z.to_nat big_size <= length big_input)%nat)
    by (rewrite big_input_length; apply Nat.le_refl).
  assert (Hmean : mean_of big_input big_size = big_mean).
  { unfold mean_of, big_input. rewrite sum_left_one_zeros. reflexivity. }
  assert (Hdev : sq_dev_sum (mean_of big_input big_size) big_input
                 = S754_finite false 16777214 (-24)).
  { rewrite Hmean. unfold big_input. apply sq_dev_sum_one_zeros. }
  assert (H2 : 2 <= big_size) by (unfold big_size; lia).
  assert (Hcode : forall a, var_result a big_input big_size
                            = Some (S754_finite false 16777215 (-48))).
  { intros a. rewrite (var_result_run a big_input big_size H2 Hlen).
    unfold two_pass_variance_fdiv. rewrite big_input_block, Hdev.
    reflexivity. }
  assert (Hspec : two_pass_variance (block big_input big_size) big_size
                  = S754_finite false 16777214 (-48)).
  { unfold two_pass_variance. rewrite big_input_block, Hdev. reflexivity. }
  split; [reflexivity|]. split; [reflexivity|]. split; [reflexivity|].
  split; [apply Hcode|]. split; [apply Hcode|]. split; [exact Hspec|].
  rewrite Hcode, Hspec. discriminate.
Qed.

(** C1, amended. For [blockSize >= 2] on an array of at least [blockSize]
    elements the value written is the two-pass variance of the first
    [blockSize] elements with plain left-to-right float32 sums, the sum of
    squared deviations being divided by the float32 value
    [(float) blockSize - 1.0f]; up to [blockSize = 2^24] that divisor is
    [blockSize - 1]. *)
Theorem two_pass_value (a : arch) (src : list float32_t) (blockSize : Z) :
  2 <= blockSize ->
  (Z.to_nat blockSize <= length src)%nat ->
  var_result a src blockSize
  = Some (two_pass_variance_fdiv (block src blockSize) blockSize) /\
  (blockSize <= 2 ^ 24 ->
   var_result a src blockSize
   = Some (two_pass_variance (block src blockSize) blockSize)).
Proof.
  intros H2 Hlen. split; [apply var_result_run; assumption|].
  intros H24. rewrite var_result_run by assumption.
  unfold two_pass_variance_fdiv, two_pass_variance.
  now rewrite divisor_exact by lia.
Qed.

Lemma two_pass_value_witness :
  var_result CM4_CM7 scenario_eight 8
  = Some (two_pass_variance (block scenario_eight 8) 8).
Proof.
  refine (proj2 (two_pass_value CM4_CM7 scenario_eight 8 _ _) _).
  - lia.
  - simpl. lia.
  - lia.
Defined.

(** ** Degenerate sizes *)

(** C2. For [blockSize] 0 or 1 the value written to [*pResult] is exactly
    [+0.0], whatever the array holds (even nothing). *)
Theorem degenerate_size_zero (a : arch) (src : list float32_t) (blockSize : Z) :
  blockSize = 0 \/ blockSize = 1 ->
  var_result a src blockSize = Some F32.zero.
Proof.
  intros H. unfold var_result.
  rewrite arm_var_f32_small by lia. reflexivity.
Qed.

Lemma degenerate_size_zero_witness :
  var_result CM4_CM7 [F32.nan; F32.pinf] 1 = Some F32.zero.
Proof. apply degenerate_size_zero. right. reflexivity. Defined.

(** C10. For [blockSize] 0 or 1 the call succeeds on every machine state,
    also one whose array is empty; its only event is the store of [+0.0]:
    no element is loaded, and the array is left as it was. *)
Theorem degenerate_size_no_load (a : arch) (blockSize : Z) (m : machine) :
  blockSize = 0 \/ blockSize = 1 ->
  exists m',
    arm_var_f32 a blockSize m = Some (tt, m') /\
    events m' = events m ++ [EvStore F32.zero] /\
    m_src m' = m_src m /\
    m_result m' = Some F32.zero.
Proof.
  intros H. eexists. split; [apply arm_var_f32_small; lia|].
  repeat split.
Qed.

Lemma degenerate_size_no_load_witness :
  exists m',
    arm_var_f32 CM0_CM3 0 (initial []) = Some (tt, m') /\
    events m' = events (initial []) ++ [EvStore F32.zero] /\
    m_src m' = m_src (initial []) /\
    m_result m' = Some F32.zero.
Proof. apply degenerate_size_no_load. left. reflexivity. Defined.

(** ** The two build configurations *)

(** C3. On every machine state and for every [blockSize] the unrolled
    configuration and the single-element configuration run alike: both
    fail, or both succeed with the same loads in the same order, the same
    value stored and the same final state. *)
Theorem unrolled_same_as_single (blockSize : Z) (m : machine) :
  arm_var_f32 CM4_CM7 blockSize m = arm_var_f32 CM0_CM3 blockSize m.
Proof.
  unfold arm_var_f32, arm_var_f32_ptr.
  destruct (Z.leb_spec blockSize 1) as [_|H]; [reflexivity|].
  unfold bind, passes, bind.
  rewrite !pass1_scan by lia.
  destruct (scan_value F32.add (Z.to_nat blockSize) m) as [[sum m1]|];
    [|reflexivity].
  rewrite !pass2_scan by lia. reflexivity.
Qed.

(** ** The scenario of eight elements *)

(** C4. On [2, 4, 4, 4, 5, 5, 7, 9] with [blockSize = 8] the locals are
    [fMean = 5.0] and [fSum = 32.0], and the value written is the float32
    quotient [32.0 / 7.0], in both configurations. *)
Theorem scenario_eight_variance (a : arch) :
  option_map fst (passes a 8 (initial scenario_eight))
  = Some (F32.of_Z 5, F32.of_Z 32) /\
  var_result a scenario_eight 8 = Some (F32.div (F32.of_Z 32) (F32.of_Z 7)).
Proof. destruct a; split; vm_compute; reflexivity. Qed.

(** ** NaN in the block *)

(** C5, as stated, fails on one element: the block [NaN] of size 1 holds a
    NaN and the value written is [+0.0]. *)
Lemma nan_block_of_one_counterexample :
  In F32.nan (block [F32.nan] 1) /\
  var_result CM4_CM7 [F32.nan] 1 = Some F32.zero /\
  var_result CM0_CM3 [F32.nan] 1 = Some F32.zero /\
  F32.is_nan F32.zero = false.
Proof. split; [left; reflexivity|]. repeat split. Qed.

(** C5, amended. For [blockSize >= 2] on an array of at least [blockSize]
    elements: when one of the first [blockSize] elements is NaN the value
    written is NaN. *)
Theorem nan_in_block_gives_nan (a : arch) (src : list float32_t) (blockSize : Z) :
  2 <= blockSize ->
  (Z.to_nat blockSize <= length src)%nat ->
  In F32.nan (block src blockSize) ->
  var_result a src blockSize = Some F32.nan.
Proof.
  intros H2 Hlen Hin.
  rewrite var_result_run by assumption.
  now rewrite two_pass_nan.
Qed.

Lemma nan_in_block_gives_nan_witness :
  var_result CM4_CM7 [F32.one; F32.nan; F32.one] 3 = Some F32.nan.
Proof.
  apply nan_in_block_gives_nan.
  - lia.
  - simpl. lia.
  - right. left. reflexivity.
Defined.

(** ** Constant blocks *)

Lemma sub_self_finite c : F32.is_finite c = true -> F32.sub c c = F32.zero.
Proof.
  destruct c as [[|]|s| |s m e]; simpl; intros H;
    try (discriminate || reflexivity).
  unfold F32.sub, SFsub. rewrite Z.sub_diag. reflexivity.
Qed.

Lemma sq_dev_self_finite c : F32.is_finite c = true -> sq_dev c c = F32.zero.
Proof. intros H. unfold sq_dev. now rewrite sub_self_finite. Qed.

Lemma sq_dev_sum_constant c xs :
  F32.is_finite c = true ->
  (forall x, In x xs -> x = c) ->
  sq_dev_sum c xs = F32.zero.
Proof.
  intros Hc Hxs. unfold sq_dev_sum.
  apply fold_left_const with (c := c); [exact Hxs|].
  now rewrite sq_dev_self_finite.
Qed.

(** C7, as stated, fails on a constant block of infinities: nothing is
    rounded in the mean, which is [+inf] as the elements are, and the
    value written is NaN. *)
Lemma constant_infinity_counterexample :
  mean_of (block [F32.pinf; F32.pinf] 2) 2 = F32.pinf /\
  var_result CM4_CM7 [F32.pinf; F32.pinf] 2 = Some F32.nan /\
  var_result CM0_CM3 [F32.pinf; F32.pinf] 2 = Some F32.nan /\
  F32.nan <> F32.zero.
Proof. repeat split; discriminate. Qed.

(** The condition on the mean cannot be dropped: on six copies of
    [1 + 2^-22] the float32 mean is [1 + 2^-23 + 2^-22], not the element,
    and the value written is not zero. *)
Example constant_block_rounded_mean :
  let c := S754_finite false 8388610 (-23) in
  let src := repeat c 6 in
  F32.valid c = true /\
  mean_of (block src 6) 6 <> c /\
  var_result CM4_CM7 src 6 = Some (S754_finite false 10066330 (-69)).
Proof.
  split; [reflexivity|].
  split; [|vm_compute; reflexivity].
  intros H. vm_compute in H. discriminate H.
Qed.

(** C7, amended. For [blockSize >= 2] on an array of at least [blockSize]
    elements whose first [blockSize] elements all equal a finite [c]:
    when the float32 mean of the block is [c] itself, the value written is
    exactly [+0.0].  That is so for [1.0, 1.0, 1.0]. *)
Theorem constant_block_zero :
  (forall (a : arch) (c : float32_t) (src : list float32_t) (blockSize : Z),
     2 <= blockSize ->
     (Z.to_nat blockSize <= length src)%nat ->
     (forall x, In x (block src blockSize) -> x = c) ->
     F32.is_finite c = true ->
     mean_of (block src blockSize) blockSize = c ->
     var_result a src blockSize = Some F32.zero) /\
  (forall a : arch,
     var_result a [F32.one; F32.one; F32.one] 3 = Some F32.zero).
Proof.
  split.
  - intros a c src blockSize H2 Hlen Hconst Hfin Hmean.
    rewrite var_result_run by assumption.
    unfold two_pass_variance_fdiv.
    rewrite Hmean, sq_dev_sum_constant by assumption.
    now rewrite div_zero_positive by (apply divisor_positive; exact H2).
  - intros a. destruct a; vm_compute; reflexivity.
Qed.

Lemma constant_block_zero_witness :
  var_result CM4_CM7 [F32.of_Z 7; F32.of_Z 7; F32.of_Z 7; F32.of_Z 7] 4
  = Some F32.zero.
Proof.
  apply (proj1 constant_block_zero CM4_CM7 (F32.of_Z 7)).
  - lia.
  - simpl. lia.
  - intros x Hx.
    change (In x [F32.of_Z 7; F32.of_Z 7; F32.of_Z 7; F32.of_Z 7]) in Hx.
    cbn [In] in Hx.
    repeat (destruct Hx as [<-|Hx]; [reflexivity|]). contradiction.
  - reflexivity.
  - vm_compute. reflexivity.
Defined.

(** ** Two elements *)

Lemma f32_eqb_eq x y : F32.eqb x y = true -> x = y.
Proof.
  destruct x as [s|s| |s m e], y as [t|t| |t n f]; simpl;
    try discriminate; try reflexivity.
  - intros H. apply Bool.eqb_prop in H. now subst.
  - intros H. apply Bool.eqb_prop in H. now subst.
  - intros H. apply andb_prop in H. destruct H as [H He].
    apply andb_prop in H. destruct H as [Hs Hm].
    apply Bool.eqb_prop in Hs. apply Pos.eqb_eq in Hm. apply Z.eqb_eq in He.
    now subst.
Qed.

(** On integers of magnitude at most 16 every operation of the two passes
    and of the formula is exact, and the two agree. *)
Lemma two_sample_small_ints :
  forallb (fun i =>
    forallb (fun j =>
      F32.eqb (two_sample_two_pass (F32.of_Z i) (F32.of_Z j))
              (two_sample_formula (F32.of_Z i) (F32.of_Z j)))
      (int_range (-16) 33))
    (int_range (-16) 33) = true.
Proof. vm_compute. reflexivity. Qed.









(** Pairs on which no operation rounds: the integers of magnitude at most
    16, [17] and [3], [2^23] and [2^23 + 2], [0.5] and [1.75]; on [1.0f]
    and its successor the mean is rounded. *)
Example two_sample_exact_pairs :
  forallb (fun i =>
    forallb (fun j => two_sample_exact (F32.of_Z i) (F32.of_Z j))
      (int_range (-16) 33))
    (int_range (-16) 33) = true /\
  two_sample_exact (F32.of_Z 17) (F32.of_Z 3) = true /\
  two_sample_exact (F32.of_Z 8388608) (F32.of_Z 8388610) = true /\
  two_sample_exact one_half seven_quarters = true /\
  two_sample_exact F32.one next_after_one = false.
Proof. repeat split; vm_compute; reflexivity. Qed.

(** An exact mean is not enough.  On [small_a] and [0.0] the sum and the
    mean are exact, but the squares are rounded in the subnormal range:
    the value written is [2^-148], and the float32 evaluation of
    [(a - b)^2 / 2] gives [2^-149].  On [2^24] and [-1.0] the sum and the
    mean are exact, but the deviations [2^23 + 0.5] are rounded: the value
    written is [2^47], not the number [(a - b)^2 / 2]. *)
Example two_sample_exact_mean_not_enough :
  (F32.valid small_a = true /\
   exact_op F32.add Qplus F32.zero small_a = true /\
   exact_op F32.add Qplus (F32.add F32.zero small_a) F32.zero = true /\
   exact_op F32.div Qdiv (F32.add (F32.add F32.zero small_a) F32.zero)
            (F32.of_Z 2) = true /\
   var_result CM4_CM7 [small_a; F32.zero] 2 = Some (S754_finite false 2 (-149)) /\
   two_sample_formula small_a F32.zero = S754_finite false 1 (-149)) /\
  (exact_op F32.add Qplus F32.zero (F32.of_Z 16777216) = true /\
   exact_op F32.add Qplus (F32.add F32.zero (F32.of_Z 16777216))
            (F32.of_Z (-1)) = true /\
   exact_op F32.div Qdiv
            (F32.add (F32.add F32.zero (F32.of_Z 16777216)) (F32.of_Z (-1)))
            (F32.of_Z 2) = true /\
   var_result CM4_CM7 [F32.of_Z 16777216; F32.of_Z (-1)] 2
   = Some (S754_finite false 8388608 24) /\
   Qeq_bool (F2Q (S754_finite false 8388608 24))
            ((F2Q (F32.of_Z 16777216) - F2Q (F32.of_Z (-1))) ^ 2 / 2) = false).
Proof. repeat split; vm_compute; reflexivity. Qed.



(** ** Memory accesses *)

Lemma events_logged l m : events (logged l m) = events m ++ rev l.
Proof. unfold events, logged; simpl. apply rev_app_distr. Qed.

Lemma events_after_call n v m :
  events (after_call n v m) = events m ++ loads n ++ loads n ++ [EvStore v].
Proof.
  unfold events, after_call; cbn [m_log rev].
  rewrite !rev_app_distr, !rev_involutive, <- !app_assoc. reflexivity.
Qed.

Lemma loads_are_loads n : forallb is_load (loads n) = true.
Proof.
  unfold loads. induction (seq 0 n) as [|i l IH]; [reflexivity|exact IH].
Qed.

Lemma in_loads i n : In (EvLoad i) (loads n) <-> (i < n)%nat.
Proof.
  unfold loads. rewrite in_map_iff. split.
  - intros (j & [= ->] & Hj). apply in_seq in Hj. lia.
  - intros H. exists i. split; [reflexivity|]. apply in_seq. lia.
Qed.

(** C9. For [blockSize >= 2] on an array of at least [blockSize] elements:
    the counters of the unrolled configuration add up to [blockSize]; in
    each pass its unrolled loop loads the indices below
    [4 * (blockSize >> 2)] and its remainder loop the [blockSize % 4] that
    follow, up to [blockSize]; and the whole call, in either configuration,
    loads the indices [0 .. blockSize - 1] once in each pass, in order,
    and nothing else. *)
Theorem block_read_exactly (a : arch) (blockSize : Z) (m : machine) :
  2 <= blockSize ->
  (Z.to_nat blockSize <= length (m_src m))%nat ->
  let n := Z.to_nat blockSize in
  let q := Z.to_nat (Z.shiftr blockSize 2) in
  let r := Z.to_nat (blockSize mod 4) in
  4 * Z.shiftr blockSize 2 + blockSize mod 4 = blockSize /\
  (forall acc m0, m_src m0 = m_src m -> exists acc',
     sum_loop4 q 0 acc m0
     = Some ((4 * q)%nat, acc',
             logged (rev (map EvLoad (seq 0 (4 * q)))) m0)) /\
  (forall acc m0, m_src m0 = m_src m -> exists acc',
     sum_loop1 r (4 * q) acc m0
     = Some (n, acc', logged (rev (map EvLoad (seq (4 * q) r))) m0)) /\
  (forall fMean acc m0, m_src m0 = m_src m -> exists acc',
     dev_loop4 fMean q 0 acc m0
     = Some ((4 * q)%nat, acc',
             logged (rev (map EvLoad (seq 0 (4 * q)))) m0)) /\
  (forall fMean acc m0, m_src m0 = m_src m -> exists acc',
     dev_loop1 fMean r (4 * q) acc m0
     = Some (n, acc', logged (rev (map EvLoad (seq (4 * q) r))) m0)) /\
  (exists v m',
     arm_var_f32 a blockSize m = Some (tt, m') /\
     events m' = events m ++ loads n ++ loads n ++ [EvStore v]) /\
  (forall i, In (EvLoad i) (loads n) <-> Z.of_nat i < blockSize).
Proof.
  intros H2 Hlen n q r.
  pose proof (unrolled_counts blockSize ltac:(lia)) as Hc.
  fold q r n in Hc.
  repeat split.
  - rewrite Z.shiftr_div_pow2 by lia. change (2 ^ 2) with 4.
    pose proof (Z.div_mod blockSize 4 ltac:(lia)). lia.
  - intros acc m0 Hm0. eexists.
    rewrite sum_loop4_scan, scan_run by (rewrite Hm0; lia). reflexivity.
  - intros acc m0 Hm0. eexists.
    rewrite sum_loop1_scan, scan_run by (rewrite Hm0; lia).
    rewrite Hc. reflexivity.
  - intros fMean acc m0 Hm0. eexists.
    rewrite dev_loop4_scan, scan_run by (rewrite Hm0; lia). reflexivity.
  - intros fMean acc m0 Hm0. eexists.
    rewrite dev_loop1_scan, scan_run by (rewrite Hm0; lia).
    rewrite Hc. reflexivity.
  - do 2 eexists. split; [apply arm_var_f32_run; assumption|].
    apply events_after_call.
  - intros Hi. apply in_loads in Hi. lia.
  - intros Hi. apply in_loads. lia.
Qed.

Lemma block_read_exactly_witness :
  exists v m',
    arm_var_f32 CM4_CM7 8 (initial scenario_eight) = Some (tt, m') /\
    events m' = events (initial scenario_eight)
                ++ loads 8 ++ loads 8 ++ [EvStore v].
Proof.
  refine (proj1 (proj2 (proj2 (proj2 (proj2 (proj2
    (block_read_exactly CM4_CM7 8 (initial scenario_eight) _ _))))))).
  - lia.
  - simpl. lia.
Defined.

(** ** Stores through [pResult] *)

Lemma upd_length l : forall i v, length (upd l i v) = length l.
Proof.
  induction l as [|x l IH]; intros [|i] v; cbn [upd length];
    try reflexivity.
  now rewrite IH.
Qed.

Lemma nth_error_upd l : forall i v,
  (i < length l)%nat -> nth_error (upd l i v) i = Some v.
Proof.
  induction l as [|x l IH]; intros [|i] v H; cbn [length] in H;
    try lia; cbn [upd nth_error]; [reflexivity|].
  apply IH. lia.
Qed.

Lemma firstn_upd l : forall k i v,
  (k <= i)%nat -> firstn k (upd l i v) = firstn k l.
Proof.
  induction l as [|x l IH]; intros [|k] [|i] v H; try lia;
    cbn [upd firstn]; try reflexivity.
  f_equal. apply IH. lia.
Qed.

Lemma store_at_run p v m :
  in_bounds p (m_src m) = true ->
  exists m',
    store_at p v m = Some (tt, m') /\
    m_log m' = EvStore v :: m_log m /\
    m_src m' = src_after p v (m_src m) /\
    deref p m' = Some v.
Proof.
  destruct p as [|i]; cbn [in_bounds store_at]; intros H.
  - eexists. split; [reflexivity|]. repeat split.
  - rewrite H. eexists. split; [reflexivity|]. repeat split.
    cbn [deref m_src]. apply nth_error_upd. now apply Nat.ltb_lt.
Qed.

Lemma arm_var_f32_ptr_run a p blockSize m :
  (Z.to_nat blockSize <= length (m_src m))%nat ->
  in_bounds p (m_src m) = true ->
  exists m' rd,
    arm_var_f32_ptr a p blockSize m = Some (tt, m') /\
    events m' = events m ++ rd ++
                [EvStore (variance_of (block (m_src m) blockSize) blockSize)] /\
    forallb is_load rd = true /\
    deref p m' = Some (variance_of (block (m_src m) blockSize) blockSize) /\
    m_src m' =
    src_after p (variance_of (block (m_src m) blockSize) blockSize) (m_src m).
Proof.
  intros Hlen Hp. unfold arm_var_f32_ptr, variance_of.
  destruct (Z.leb_spec blockSize 1) as [Hs|Hb].
  - destruct (store_at_run p (F32.of_Z 0) m Hp) as (m' & Hst & Hlog & Hsrc & Hd).
    exists m', []. split; [exact Hst|].
    split; [unfold events; rewrite Hlog; reflexivity|].
    split; [reflexivity|]. split; [exact Hd|exact Hsrc].
  - unfold bind. rewrite passes_run by (assumption || lia).
    set (v := F32.div _ (divisor blockSize)).
    set (m1 := logged _ m).
    destruct (store_at_run p v m1 Hp) as (m' & Hst & Hlog & Hsrc & Hd).
    exists m', (loads (Z.to_nat blockSize) ++ loads (Z.to_nat blockSize)).
    split; [exact Hst|].
    split.
    { unfold events. rewrite Hlog. unfold m1. cbn [logged m_log rev].
      rewrite !rev_app_distr, !rev_involutive, <- !app_assoc. reflexivity. }
    split; [rewrite forallb_app, loads_are_loads; reflexivity|].
    split; [exact Hd|exact Hsrc].
Qed.

(** C8, as stated, fails when [pResult] points into the input vector:
    nothing in the signature forbids it, and the store of the result then
    overwrites an element.  With [pResult = pSrc] on [1.0, 3.0] and
    [blockSize = 2] the array is [2.0, 3.0] after the call; with
    [blockSize = 1] on [1.0] it is [0.0]. *)
Lemma aliased_result_counterexample :
  option_map (fun r => m_src (snd r))
    (arm_var_f32_ptr CM4_CM7 (Inside 0) 2 (initial [F32.one; F32.of_Z 3]))
  = Some [F32.of_Z 2; F32.of_Z 3] /\
  [F32.of_Z 2; F32.of_Z 3] <> [F32.one; F32.of_Z 3] /\
  option_map (fun r => m_src (snd r))
    (arm_var_f32_ptr CM0_CM3 (Inside 0) 1 (initial [F32.one]))
  = Some [F32.zero] /\
  [F32.zero] <> [F32.one].
Proof.
  split; [vm_compute; reflexivity|].
  split; [intros H; vm_compute in H; discriminate H|].
  split; [vm_compute; reflexivity|].
  intros H; vm_compute in H; discriminate H.
Qed.

(** C8, amended.  On an array of at least [blockSize] elements and with
    [pResult] pointing at a float that exists, a call succeeds; it
    performs loads and then exactly one store, through [pResult], of
    [variance_of], a function of the first [blockSize] elements and of
    [blockSize] only; nothing but the float behind [pResult] changes, so
    when [pResult] does not point into the first [blockSize] elements the
    input vector is left as it was.  Any call, in any configuration,
    through any pointer and from any state whose array starts with the
    same block, stores that same value. *)
Theorem call_frame (a : arch) (pResult : result_ptr) (blockSize : Z)
  (m : machine) :
  (Z.to_nat blockSize <= length (m_src m))%nat ->
  in_bounds pResult (m_src m) = true ->
  let v := variance_of (block (m_src m) blockSize) blockSize in
  (exists m' rd,
     arm_var_f32_ptr a pResult blockSize m = Some (tt, m') /\
     events m' = events m ++ rd ++ [EvStore v] /\
     forallb is_load rd = true /\
     deref pResult m' = Some v /\
     m_src m' = src_after pResult v (m_src m) /\
     (outside_block pResult blockSize = true ->
      block (m_src m') blockSize = block (m_src m) blockSize)) /\
  (forall a2 p2 m2,
     (Z.to_nat blockSize <= length (m_src m2))%nat ->
     in_bounds p2 (m_src m2) = true ->
     block (m_src m2) blockSize = block (m_src m) blockSize ->
     exists m2',
       arm_var_f32_ptr a2 p2 blockSize m2 = Some (tt, m2') /\
       deref p2 m2' = Some v).
Proof.
  intros Hlen Hp v. split.
  - destruct (arm_var_f32_ptr_run a pResult blockSize m Hlen Hp)
      as (m' & rd & Hcall & Hev & Hrd & Hd & Hsrc).
    exists m', rd. repeat (split; [assumption|]).
    intros Hout. rewrite Hsrc. unfold block.
    destruct pResult as [|i]; cbn [src_after]; [reflexivity|].
    apply firstn_upd. cbn [outside_block] in Hout. now apply Nat.leb_le.
  - intros a2 p2 m2 Hlen2 Hp2 Hblock.
    destruct (arm_var_f32_ptr_run a2 p2 blockSize m2 Hlen2 Hp2)
      as (m2' & rd & Hcall & _ & _ & Hd & _).
    exists m2'. split; [exact Hcall|]. rewrite Hd, Hblock. reflexivity.
Qed.

Lemma call_frame_witness :
  exists m' rd,
    arm_var_f32_ptr CM0_CM3 (Inside 3) 3
      (initial [F32.one; F32.one; F32.one; F32.of_Z 9]) = Some (tt, m') /\
    events m' = rd ++ [EvStore (variance_of [F32.one; F32.one; F32.one] 3)] /\
    forallb is_load rd = true /\
    deref (Inside 3) m' = Some (variance_of [F32.one; F32.one; F32.one] 3) /\
    m_src m' = [F32.one; F32.one; F32.one;
                variance_of [F32.one; F32.one; F32.one] 3] /\
    (outside_block (Inside 3) 3 = true ->
     block (m_src m') 3 = [F32.one; F32.one; F32.one]).
Proof.
  refine (proj1 (call_frame CM0_CM3 (Inside 3) 3
                   (initial [F32.one; F32.one; F32.one; F32.of_Z 9]) _ _)).
  - simpl. lia.
  - reflexivity.
Defined.

(** * Signs, NaN and infinities *)

(** ** Signs of rounded results *)

Lemma shr_fexp_nonneg m e l :
  0 <= m -> 0 <= shr_m (fst (shr_fexp 24 128 m e l)).
Proof.
  intros Hm. unfold shr_fexp, shr.
  destruct (fexp 24 128 (Zdigits2 m + e) - e) as [|k|k]; cbn [fst];
    try (rewrite shr_record_of_loc_m; exact Hm).
  rewrite iter_pos_nat, shr_iter_m by (rewrite shr_record_of_loc_m; exact Hm).
  rewrite shr_record_of_loc_m. apply Z.div_pos; [exact Hm|].
  apply Z.pow_pos_nonneg; lia.
Qed.

(** Rounding a non-negative mantissa gives a zero, a finite number or an
    infinity of the sign asked for, never NaN. *)
Lemma binary_round_aux_sign s m e l :
  0 <= m -> signed_as s (binary_round_aux 24 128 s m e l) = true.
Proof.
  intros Hm. unfold binary_round_aux.
  pose proof (shr_fexp_nonneg m e l Hm) as H1.
  destruct (shr_fexp 24 128 m e l) as [r1 e1]. cbn [fst] in H1.
  pose proof (round_nearest_even_ge (shr_m r1) (loc_of_shr_record r1)) as Hr.
  set (m2 := round_nearest_even (shr_m r1) (loc_of_shr_record r1)) in *.
  pose proof (shr_fexp_nonneg m2 e1 loc_Exact ltac:(lia)) as H2.
  destruct (shr_fexp 24 128 m2 e1 loc_Exact) as [r2 e2]. cbn [fst] in H2.
  destruct (shr_m r2) as [|m3|m3]; try lia; cbn [signed_as].
  - apply Bool.eqb_reflx.
  - destruct (e2 <=? 128 - 24); apply Bool.eqb_reflx.
Qed.

Lemma binary_round_sign s m e :
  signed_as s (binary_round 24 128 s m e) = true.
Proof.
  unfold binary_round. destruct (shl_align m e _) as [mz ez].
  apply binary_round_aux_sign. lia.
Qed.

Lemma binary_normalize_not_nan z e :
  F32.is_nan (binary_normalize 24 128 z e false) = false.
Proof.
  destruct z as [|p|p]; cbn [binary_normalize]; [reflexivity| |].
  - pose proof (binary_round_sign false p e) as H.
    destruct (binary_round 24 128 false p e); (discriminate || reflexivity).
  - pose proof (binary_round_sign true p e) as H.
    destruct (binary_round 24 128 true p e); (discriminate || reflexivity).
Qed.

Lemma signed_not_nan s x : signed_as s x = true -> F32.is_nan x = false.
Proof. destruct x; (discriminate || reflexivity). Qed.

Lemma nonneg_not_nan x : nonneg x = true -> F32.is_nan x = false.
Proof. apply signed_not_nan. Qed.

Lemma nonneg_or_nan_of_nonneg x : nonneg x = true -> nonneg_or_nan x = true.
Proof. intros H. unfold nonneg_or_nan. rewrite H. apply orb_true_r. Qed.

(** A square is NaN or not negative; the square of a number is not
    negative. *)
Lemma mul_self_nonneg x :
  F32.is_nan x = false -> nonneg (F32.mul x x) = true.
Proof.
  destruct x as [s|s| |s m e]; intros H; try discriminate.
  - destruct s; reflexivity.
  - destruct s; reflexivity.
  - unfold F32.mul, F32.prec, F32.emax, SFmul. rewrite xorb_nilpotent.
    apply binary_round_aux_sign. lia.
Qed.

Lemma mul_self_nonneg_or_nan x : nonneg_or_nan (F32.mul x x) = true.
Proof.
  destruct (F32.is_nan x) eqn:Hx.
  - apply is_nan_eq in Hx. subst. reflexivity.
  - apply nonneg_or_nan_of_nonneg, mul_self_nonneg, Hx.
Qed.

(** The sum of two non-negative floats is non-negative. *)
Lemma add_nonneg x y :
  nonneg x = true -> nonneg y = true -> nonneg (F32.add x y) = true.
Proof.
  destruct x as [[|]|[|]| |[|] mx ex]; try discriminate;
    destruct y as [[|]|[|]| |[|] my ey]; try discriminate;
    intros _ _; try reflexivity.
  unfold F32.add, F32.prec, F32.emax, SFadd. cbn [cond_Zopp].
  cbn [binary_normalize Z.add]. apply binary_round_sign.
Qed.

Lemma add_nonneg_or_nan x y :
  nonneg_or_nan x = true -> nonneg_or_nan y = true ->
  nonneg_or_nan (F32.add x y) = true.
Proof.
  unfold nonneg_or_nan. intros Hx Hy.
  destruct (F32.is_nan x) eqn:Ex.
  - apply is_nan_eq in Ex. subst. reflexivity.
  - destruct (F32.is_nan y) eqn:Ey.
    + apply is_nan_eq in Ey. subst. now rewrite add_nan_r.
    + simpl in Hx, Hy. rewrite (add_nonneg x y Hx Hy). apply orb_true_r.
Qed.

Lemma div_core_nonneg mx ex my ey :
  0 <= fst (fst (SFdiv_core_binary 24 128 (Zpos mx) ex (Zpos my) ey)).
Proof.
  unfold SFdiv_core_binary.
  set (s := ex - ey - _).
  set (m' := match s with Z0 => Zpos mx | Zpos _ => Z.shiftl (Zpos mx) s
                      | Zneg _ => 0 end).
  assert (Hm' : 0 <= m').
  { unfold m'. destruct s; try lia. apply Z.shiftl_nonneg. lia. }
  pose proof (Z_div_mod m' (Zpos my) ltac:(lia)) as H.
  destruct (Z.div_eucl m' (Zpos my)) as [q r]. cbn [fst].
  destruct H as [H1 H2]. nia.
Qed.

(** A float that is not NaN, divided by a positive finite float, keeps
    its sign and is not NaN. *)
Lemma div_finite_positive_sign s x m e :
  signed_as s x = true ->
  signed_as s (F32.div x (S754_finite false m e)) = true.
Proof.
  destruct x as [t|t| |t mx ex]; cbn [signed_as]; intros H; try discriminate.
  - cbn. now rewrite xorb_false_r.
  - cbn. now rewrite xorb_false_r.
  - apply Bool.eqb_prop in H. subst t.
    unfold F32.div, F32.prec, F32.emax, SFdiv.
    pose proof (div_core_nonneg mx ex m e) as Hq.
    destruct (SFdiv_core_binary 24 128 (Zpos mx) ex (Zpos m) e) as [[mz ez] lz].
    cbn [fst] in Hq. rewrite xorb_false_r.
    apply binary_round_aux_sign, Hq.
Qed.

(** Dividing by a positive float, finite or infinite, keeps a result
    that is NaN or not negative. *)
Lemma div_positive_nonneg_or_nan x d :
  nonneg_or_nan x = true -> positive_float d = true ->
  nonneg_or_nan (F32.div x d) = true.
Proof.
  intros Hx Hd.
  destruct d as [t|[|]| |[|] m e]; try discriminate.
  - destruct x as [[|]|[|]| |[|] mx ex]; (discriminate || reflexivity).
  - destruct (F32.is_nan x) eqn:Ex.
    + apply is_nan_eq in Ex. subst. reflexivity.
    + unfold nonneg_or_nan in Hx. rewrite Ex in Hx. simpl in Hx.
      apply nonneg_or_nan_of_nonneg. unfold nonneg.
      now apply div_finite_positive_sign.
Qed.

(** ** Exponent bounds: conversions of [uint32_t] do not overflow *)

Lemma digits2_pos_le x k : Zpos x < 2 ^ k -> Zpos (digits2_pos x) <= k.
Proof.
  intros H. pose proof (digits2_pos_bounds x) as [Hlo _].
  destruct (Z.le_gt_cases (Zpos (digits2_pos x)) k) as [Hle|Hgt]; [exact Hle|].
  destruct (Z.le_gt_cases 0 k) as [Hk|Hk].
  - assert (2 ^ k <= 2 ^ (Zpos (digits2_pos x) - 1))
      by (apply Z.pow_le_mono_r; lia). lia.
  - rewrite Z.pow_neg_r in H by lia. lia.
Qed.

Lemma round_nearest_even_le m l : round_nearest_even m l <= m + 1.
Proof.
  destruct l as [|[]]; cbn [round_nearest_even]; try lia.
  destruct (Z.even m); lia.
Qed.

Lemma shr_fexp_normal_bounds m e l r e' :
  -149 <= e -> 2 ^ 23 <= Zpos m ->
  shr_fexp 24 128 (Zpos m) e l = (r, e') ->
  2 ^ 23 <= shr_m r < 2 ^ 24 /\
  e' = e + Z.max 0 (Zpos (digits2_pos m) - 24).
Proof.
  intros He Hm. unfold shr_fexp, shr. cbn [Zdigits2]. rewrite fexp32.
  pose proof (digits2_pos_bounds m) as [Hlo Hhi].
  destruct (Z.max (Zpos (digits2_pos m) + e - 24) (-149) - e) as [|k|k] eqn:Hk;
    intros [= <- <-].
  - rewrite shr_record_of_loc_m.
    assert (2 ^ Zpos (digits2_pos m) <= 2 ^ 24)
      by (apply Z.pow_le_mono_r; lia). lia.
  - rewrite iter_pos_nat, shr_iter_m by (rewrite shr_record_of_loc_m; lia).
    rewrite shr_record_of_loc_m, positive_nat_Z.
    assert (Hd : Zpos k = Zpos (digits2_pos m) - 24) by lia.
    split; [split|lia].
    + apply Z.div_le_lower_bound; [apply Z.pow_pos_nonneg; lia|].
      rewrite <- Z.pow_add_r by lia.
      replace (Zpos k + 23) with (Zpos (digits2_pos m) - 1) by lia.
      exact Hlo.
    + apply Z.div_lt_upper_bound; [apply Z.pow_pos_nonneg; lia|].
      rewrite <- Z.pow_add_r by lia.
      replace (Zpos k + 24) with (Zpos (digits2_pos m)) by lia.
      exact Hhi.
  - rewrite shr_record_of_loc_m.
    assert (2 ^ Zpos (digits2_pos m) <= 2 ^ 24)
      by (apply Z.pow_le_mono_r; lia). lia.
Qed.

(** Rounding a normal mantissa far enough below the largest exponent
    gives a normal finite number. *)
Lemma binary_round_aux_finite m e l :
  -149 <= e -> 2 ^ 23 <= Zpos m ->
  e + Z.max 0 (Zpos (digits2_pos m) - 24) + 1 <= 104 ->
  exists m' e',
    binary_round_aux 24 128 false (Zpos m) e l = S754_finite false m' e' /\
    2 ^ 23 <= Zpos m' < 2 ^ 24 /\
    e <= e' <= e + Z.max 0 (Zpos (digits2_pos m) - 24) + 1.
Proof.
  intros He Hm Hb. unfold binary_round_aux.
  destruct (shr_fexp 24 128 (Zpos m) e l) as [r1 e1] eqn:E1.
  destruct (shr_fexp_normal_bounds _ _ _ _ _ He Hm E1) as [Hm1 He1].
  pose proof (round_nearest_even_ge (shr_m r1) (loc_of_shr_record r1)) as Hr.
  pose proof (round_nearest_even_le (shr_m r1) (loc_of_shr_record r1)) as Hr'.
  destruct (round_nearest_even (shr_m r1) (loc_of_shr_record r1))
    as [|m2|m2]; try lia.
  assert (Hd2 : Zpos (digits2_pos m2) <= 25)
    by (apply digits2_pos_le; change (2 ^ 25) with (2 * 2 ^ 24); lia).
  destruct (shr_fexp 24 128 (Zpos m2) e1 loc_Exact) as [r2 e2] eqn:E2.
  destruct (shr_fexp_normal_bounds m2 e1 loc_Exact r2 e2) as [Hm2 He2];
    [lia|lia|exact E2|].
  destruct (shr_m r2) as [|m3|m3]; try lia.
  change (128 - 24) with 104.
  destruct (Z.leb_spec e2 104) as [_|?]; [|lia].
  exists m3, e2. repeat split; lia.
Qed.

(** The float of a [uint32_t] of at least 2 is a normal finite number
    with an exponent between -22 and 9. *)
Lemma of_Z_uint32_finite n :
  2 <= n < 2 ^ 32 ->
  exists m e, F32.of_Z n = S754_finite false m e /\
              2 ^ 23 <= Zpos m < 2 ^ 24 /\ -22 <= e <= 9.
Proof.
  intros [Hlo Hhi]. destruct n as [|p|p]; try lia.
  change (F32.of_Z (Zpos p)) with (binary_round 24 128 false p 0).
  unfold binary_round.
  destruct (shl_align p 0 _) as [mz ez] eqn:Hs.
  apply shl_align_spec in Hs. destruct Hs as [Hv He].
  rewrite fexp32 in He.
  pose proof (digits2_pos_bounds p) as [Hplo Hphi].
  assert (Hd : 2 <= Zpos (digits2_pos p) <= 32).
  { split; [destruct (digits2_pos p) as [d|d|]; lia|].
    apply digits2_pos_le. exact Hhi. }
  assert (Hmz : 2 ^ 23 <= Zpos mz).
  { rewrite Hv.
    apply Z.le_trans with (2 ^ (Zpos (digits2_pos p) - 1) * 2 ^ (0 - ez)).
    - rewrite <- Z.pow_add_r by lia. apply Z.pow_le_mono_r; lia.
    - apply Z.mul_le_mono_nonneg_r; [apply Z.pow_nonneg; lia|exact Hplo]. }
  assert (Hdz : Zpos (digits2_pos mz) <= Zpos (digits2_pos p) - ez).
  { apply digits2_pos_le. rewrite Hv.
    replace (Zpos (digits2_pos p) - ez) with (Zpos (digits2_pos p) + (0 - ez)) by lia.
    rewrite Z.pow_add_r by lia.
    apply Z.mul_lt_mono_pos_r; [apply Z.pow_pos_nonneg; lia|exact Hphi]. }
  destruct (binary_round_aux_finite mz ez loc_Exact)
    as (m' & e' & -> & Hm' & He'); [lia|exact Hmz|lia|].
  exists m', e'. repeat split; lia.
Qed.

(** So is the divisor [(float) blockSize - 1.0f]. *)
Lemma divisor_uint32_finite n :
  2 <= n < 2 ^ 32 ->
  exists m e, divisor n = S754_finite false m e /\
              2 ^ 23 <= Zpos m < 2 ^ 24 /\ -23 <= e <= 10.
Proof.
  intros Hn. unfold divisor.
  destruct (of_Z_uint32_finite n Hn) as (m & e & -> & Hm & He).
  destruct (sub_one_round m e ltac:(lia) ltac:(lia)) as (q & Hq & Hq23 & ->).
  assert (Hq56 : Zpos q < 2 ^ 56).
  { rewrite Hq.
    assert (2 ^ (e + 23) <= 2 ^ 32) by (apply Z.pow_le_mono_r; lia).
    assert (0 < 2 ^ (e + 23)) by (apply Z.pow_pos_nonneg; lia).
    change (2 ^ 56) with (2 ^ 24 * 2 ^ 32). nia. }
  unfold binary_round.
  destruct (shl_align q (-23) _) as [mq eq] eqn:Hs.
  apply shl_align_spec in Hs. destruct Hs as [Hv Heq].
  rewrite fexp32 in Heq.
  pose proof (digits2_pos_le q 56 Hq56) as Hdq.
  pose proof (digits2_pos_bounds q) as [Hqlo Hqhi].
  assert (Hdq24 : 24 <= Zpos (digits2_pos q)).
  { destruct (Z.le_gt_cases 24 (Zpos (digits2_pos q))) as [H|H]; [exact H|].
    assert (2 ^ Zpos (digits2_pos q) <= 2 ^ 23)
      by (apply Z.pow_le_mono_r; lia). lia. }
  assert (Hmq : 2 ^ 23 <= Zpos mq).
  { rewrite Hv. apply Z.le_trans with (Zpos q * 1); [lia|].
    apply Z.mul_le_mono_nonneg_l; [lia|].
    assert (0 < 2 ^ (-23 - eq)) by (apply Z.pow_pos_nonneg; lia). lia. }
  assert (Hdmq : Zpos (digits2_pos mq) <= Zpos (digits2_pos q) + (-23 - eq)).
  { apply digits2_pos_le. rewrite Hv, Z.pow_add_r by lia.
    apply Z.mul_lt_mono_pos_r; [apply Z.pow_pos_nonneg; lia|exact Hqhi]. }
  destruct (binary_round_aux_finite mq eq loc_Exact)
    as (m' & e' & -> & Hm' & He'); [lia|exact Hmq|lia|].
  exists m', e'. repeat split; lia.
Qed.

(** ** The sign of the result *)

Lemma sq_dev_nonneg_or_nan mean x : nonneg_or_nan (sq_dev mean x) = true.
Proof. apply mul_self_nonneg_or_nan. Qed.

Lemma fold_dev_nonneg_or_nan mean xs : forall acc,
  nonneg_or_nan acc = true ->
  nonneg_or_nan
    (fold_left (fun acc x => F32.add acc (sq_dev mean x)) xs acc) = true.
Proof.
  induction xs as [|x xs IH]; intros acc Hacc; [exact Hacc|].
  cbn [fold_left]. apply IH, add_nonneg_or_nan;
    [exact Hacc|apply sq_dev_nonneg_or_nan].
Qed.

Lemma two_pass_nonneg_or_nan xs n :
  2 <= n -> nonneg_or_nan (two_pass_variance_fdiv xs n) = true.
Proof.
  intros Hn. unfold two_pass_variance_fdiv.
  apply div_positive_nonneg_or_nan; [|apply divisor_positive, Hn].
  apply fold_dev_nonneg_or_nan. reflexivity.
Qed.

(** ** Finite blocks *)

Lemma not_nan_signed x :
  F32.is_nan x = false -> exists s, signed_as s x = true.
Proof.
  destruct x as [s|s| |s m e]; intros H; try discriminate;
    exists s; apply Bool.eqb_reflx.
Qed.

Lemma add_finite_not_nan acc x :
  F32.is_nan acc = false -> F32.is_finite x = true ->
  F32.is_nan (F32.add acc x) = false.
Proof.
  destruct acc as [s|s| |s ma ea]; intros Ha; try discriminate;
    destruct x as [t|t| |t mx ex]; intros Hx; try discriminate;
    try reflexivity.
  - destruct s, t; reflexivity.
  - apply binary_normalize_not_nan.
Qed.

Lemma sum_left_finite_not_nan xs : forall acc,
  F32.is_nan acc = false ->
  forallb F32.is_finite xs = true ->
  F32.is_nan (fold_left F32.add xs acc) = false.
Proof.
  induction xs as [|x xs IH]; intros acc Hacc Hxs; [exact Hacc|].
  cbn [forallb] in Hxs. apply andb_prop in Hxs. destruct Hxs as [Hx Hxs].
  cbn [fold_left]. apply IH; [|exact Hxs].
  now apply add_finite_not_nan.
Qed.

Lemma sub_finite_not_nan x mean :
  F32.is_finite x = true -> F32.is_nan mean = false ->
  F32.is_nan (F32.sub x mean) = false.
Proof.
  destruct x as [s|s| |s mx ex]; intros Hx; try discriminate;
    destruct mean as [t|t| |t mm em]; intros Hm; try discriminate;
    try reflexivity.
  - destruct s, t; reflexivity.
  - apply binary_normalize_not_nan.
Qed.

Lemma sq_dev_finite_nonneg mean x :
  F32.is_finite x = true -> F32.is_nan mean = false ->
  nonneg (sq_dev mean x) = true.
Proof.
  intros Hx Hm. unfold sq_dev. apply mul_self_nonneg.
  now apply sub_finite_not_nan.
Qed.

Lemma fold_dev_finite_nonneg mean xs : forall acc,
  F32.is_nan mean = false ->
  nonneg acc = true ->
  forallb F32.is_finite xs = true ->
  nonneg (fold_left (fun acc x => F32.add acc (sq_dev mean x)) xs acc) = true.
Proof.
  induction xs as [|x xs IH]; intros acc Hm Hacc Hxs; [exact Hacc|].
  cbn [forallb] in Hxs. apply andb_prop in Hxs. destruct Hxs as [Hx Hxs].
  cbn [fold_left]. apply IH; [exact Hm| |exact Hxs].
  apply add_nonneg; [exact Hacc|now apply sq_dev_finite_nonneg].
Qed.

Lemma two_pass_finite_nonneg xs n :
  2 <= n < 2 ^ 32 ->
  forallb F32.is_finite xs = true ->
  nonneg (two_pass_variance_fdiv xs n) = true.
Proof.
  intros Hn Hxs. unfold two_pass_variance_fdiv.
  destruct (divisor_uint32_finite n Hn) as (md & ed & -> & _ & _).
  apply div_finite_positive_sign. fold (nonneg (sq_dev_sum (mean_of xs n) xs)).
  apply fold_dev_finite_nonneg; [|reflexivity|exact Hxs].
  unfold mean_of.
  destruct (of_Z_uint32_finite n Hn) as (mn & en & -> & _ & _).
  destruct (not_nan_signed (sum_left xs)) as [s Hs].
  { apply sum_left_finite_not_nan; [reflexivity|exact Hxs]. }
  apply (signed_not_nan s). now apply div_finite_positive_sign.
Qed.

(** ** Infinities in the block *)

Lemma add_inf_r s acc : inf_or_nan s (F32.add acc (S754_infinity s)).
Proof.
  destruct acc as [t|t| |t m e]; cbn;
    try (left; reflexivity); try (right; reflexivity).
  destruct t, s; (left; reflexivity) || (right; reflexivity).
Qed.

Lemma add_inf_or_nan s acc y :
  inf_or_nan s acc -> inf_or_nan s (F32.add acc y).
Proof.
  intros [->| ->]; [|right; reflexivity].
  destruct y as [t|t| |t m e]; cbn;
    try (left; reflexivity); try (right; reflexivity).
  destruct s, t; (left; reflexivity) || (right; reflexivity).
Qed.

Lemma fold_add_inf_or_nan s xs : forall acc,
  inf_or_nan s acc -> inf_or_nan s (fold_left F32.add xs acc).
Proof.
  induction xs as [|x xs IH]; intros acc H; [exact H|].
  cbn [fold_left]. apply IH, add_inf_or_nan, H.
Qed.

Lemma fold_add_inf s xs : forall acc,
  In (S754_infinity s) xs -> inf_or_nan s (fold_left F32.add xs acc).
Proof.
  induction xs as [|x xs IH]; intros acc Hin; [destruct Hin|].
  cbn [fold_left]. destruct Hin as [->|Hin].
  - apply fold_add_inf_or_nan, add_inf_r.
  - now apply IH.
Qed.

Lemma fold_dev_nan mean xs x : forall acc,
  In x xs -> sq_dev mean x = F32.nan ->
  fold_left (fun acc x => F32.add acc (sq_dev mean x)) xs acc = F32.nan.
Proof.
  induction xs as [|y xs IH]; intros acc Hin Hx; [destruct Hin|].
  cbn [fold_left]. destruct Hin as [->|Hin].
  - rewrite Hx, add_nan_r. apply fold_dev_from_nan.
  - now apply IH.
Qed.

Lemma two_pass_inf xs n s :
  2 <= n -> In (S754_infinity s) xs ->
  two_pass_variance_fdiv xs n = F32.nan.
Proof.
  intros Hn Hin. unfold two_pass_variance_fdiv.
  assert (Hmean : inf_or_nan s (mean_of xs n)).
  { unfold mean_of. destruct (fold_add_inf s xs F32.zero Hin) as [H|H];
      unfold sum_left; rewrite H; [|right; reflexivity].
    pose proof (of_Z_at_least_two n Hn) as Hd.
    destruct (F32.of_Z n) as [t|[|]| |[|] m e]; try contradiction.
    - right. reflexivity.
    - left. cbn. now rewrite xorb_false_r. }
  destruct Hmean as [-> | ->].
  - unfold sq_dev_sum.
    rewrite (fold_dev_nan _ xs (S754_infinity s) _ Hin); [reflexivity|].
    destruct s; reflexivity.
  - rewrite sq_dev_sum_nan_mean; [reflexivity|].
    intros ->. destruct Hin.
Qed.

(** ** Blocks of zeros *)

Lemma fold_add_zeros xs :
  forallb is_zero xs = true -> fold_left F32.add xs F32.zero = F32.zero.
Proof.
  induction xs as [|x xs IH]; intros H; [reflexivity|].
  cbn [forallb] in H. apply andb_prop in H. destruct H as [Hx Hxs].
  cbn [fold_left]. destruct x as [[|]| | |]; try discriminate; apply IH, Hxs.
Qed.

Lemma fold_dev_zeros xs :
  forallb is_zero xs = true -> sq_dev_sum F32.zero xs = F32.zero.
Proof.
  unfold sq_dev_sum.
  induction xs as [|x xs IH]; intros H; [reflexivity|].
  cbn [forallb] in H. apply andb_prop in H. destruct H as [Hx Hxs].
  cbn [fold_left]. destruct x as [[|]| | |]; try discriminate; apply IH, Hxs.
Qed.

Lemma two_pass_zeros xs n :
  2 <= n -> forallb is_zero xs = true ->
  two_pass_variance_fdiv xs n = F32.zero.
Proof.
  intros Hn Hxs. unfold two_pass_variance_fdiv, mean_of, sum_left.
  rewrite fold_add_zeros by exact Hxs.
  assert (Hmean : F32.div F32.zero (F32.of_Z n) = F32.zero).
  { pose proof (of_Z_at_least_two n Hn) as Hd.
    destruct (F32.of_Z n) as [t|[|]| |[|] m e]; try contradiction;
      reflexivity. }
  rewrite Hmean, fold_dev_zeros by exact Hxs.
  apply div_zero_positive, divisor_positive, Hn.
Qed.

(** ** Exchanging the first two elements *)

Lemma add_comm x y : F32.add x y = F32.add y x.
Proof.
  destruct x as [s|s| |s mx ex], y as [t|t| |t my ey];
    try reflexivity; try (destruct s, t; reflexivity).
  unfold F32.add, SFadd. rewrite (Z.min_comm ey ex). f_equal. apply Z.add_comm.
Qed.

Lemma add_first_two x y :
  F32.add (F32.add F32.zero x) y = F32.add (F32.add F32.zero y) x.
Proof.
  destruct x as [s|s| |s mx ex], y as [t|t| |t my ey];
    try reflexivity; try (destruct s, t; reflexivity);
    try (destruct s; reflexivity); try (destruct t; reflexivity).
  change (F32.add F32.zero (S754_finite s mx ex)) with (S754_finite s mx ex).
  change (F32.add F32.zero (S754_finite t my ey)) with (S754_finite t my ey).
  apply add_comm.
Qed.

Lemma two_pass_swap x y rest n :
  two_pass_variance_fdiv (x :: y :: rest) n
  = two_pass_variance_fdiv (y :: x :: rest) n.
Proof.
  unfold two_pass_variance_fdiv, mean_of, sum_left, sq_dev_sum.
  cbn [fold_left]. rewrite (add_first_two x y).
  generalize (F32.div (fold_left F32.add rest
                         (F32.add (F32.add F32.zero y) x)) (F32.of_Z n)).
  intros m. rewrite (add_first_two (sq_dev m x) (sq_dev m y)).
  reflexivity.
Qed.

(** ** Negating every element *)

Notation "x ~~ y" := (same_up_to_zero_sign x y) (at level 70).

Lemma eqz_refl x : x ~~ x.
Proof. left. reflexivity. Qed.

Lemma eqz_trans x y z : x ~~ y -> y ~~ z -> x ~~ z.
Proof.
  intros [->|[Hx Hy]] [->|[Hy' Hz]].
  - left. reflexivity.
  - right. split; assumption.
  - right. split; assumption.
  - right. split; assumption.
Qed.

Ltac eqz_cases :=
  first [ left; reflexivity | right; split; reflexivity ].

Lemma opp_binary_round_aux s m e l :
  SFopp (binary_round_aux 24 128 s m e l)
  = binary_round_aux 24 128 (negb s) m e l.
Proof.
  unfold binary_round_aux.
  destruct (shr_fexp 24 128 m e l) as [r1 e1].
  destruct (shr_fexp 24 128 _ e1 loc_Exact) as [r2 e2].
  destruct (shr_m r2); [reflexivity| |reflexivity].
  destruct (e2 <=? 128 - 24); reflexivity.
Qed.

Lemma opp_binary_round s m e :
  SFopp (binary_round 24 128 s m e) = binary_round 24 128 (negb s) m e.
Proof.
  unfold binary_round. destruct (shl_align m e _) as [mz ez].
  apply opp_binary_round_aux.
Qed.

Lemma opp_binary_normalize z e :
  binary_normalize 24 128 (- z) e false
  ~~ SFopp (binary_normalize 24 128 z e false).
Proof.
  destruct z as [|p|p]; cbn [binary_normalize Z.opp].
  - right. split; reflexivity.
  - left. now rewrite opp_binary_round.
  - left. now rewrite opp_binary_round.
Qed.

Lemma cond_Zopp_negb s z : cond_Zopp (negb s) z = - cond_Zopp s z.
Proof. destruct s; cbn; lia. Qed.

Lemma add_opp x y : F32.add (SFopp x) (SFopp y) ~~ SFopp (F32.add x y).
Proof.
  destruct x as [s|s| |s mx ex], y as [t|t| |t my ey]; cbn [SFopp];
    try (destruct s, t; eqz_cases); try eqz_cases.
  unfold F32.add, SFadd. rewrite !cond_Zopp_negb, <- Z.opp_add_distr.
  apply opp_binary_normalize.
Qed.

Lemma sub_opp x y : F32.sub (SFopp x) (SFopp y) ~~ SFopp (F32.sub x y).
Proof.
  destruct x as [s|s| |s mx ex], y as [t|t| |t my ey]; cbn [SFopp];
    try (destruct s, t; eqz_cases); try eqz_cases.
  unfold F32.sub, SFsub. rewrite !cond_Zopp_negb.
  replace (- cond_Zopp s (Zpos (fst (shl_align mx ex (Z.min ex ey))))
           - - cond_Zopp t (Zpos (fst (shl_align my ey (Z.min ex ey)))))
    with (- (cond_Zopp s (Zpos (fst (shl_align mx ex (Z.min ex ey))))
             - cond_Zopp t (Zpos (fst (shl_align my ey (Z.min ex ey))))))
    by lia.
  apply opp_binary_normalize.
Qed.

Lemma div_opp x d : F32.div (SFopp x) d = SFopp (F32.div x d).
Proof.
  destruct x as [s|s| |s mx ex], d as [t|t| |t my ey]; cbn [SFopp];
    try (destruct s, t; reflexivity); try reflexivity.
  unfold F32.div, F32.prec, F32.emax, SFdiv.
  destruct (SFdiv_core_binary 24 128 (Zpos mx) ex (Zpos my) ey) as [[mz ez] lz].
  rewrite opp_binary_round_aux. now destruct s, t.
Qed.

Lemma mul_self_opp u : F32.mul (SFopp u) (SFopp u) = F32.mul u u.
Proof.
  destruct u as [s|s| |s m e]; cbn [SFopp]; try (destruct s; reflexivity);
    try reflexivity.
Qed.

Lemma zero_cases x : is_zero x = true -> exists s, x = S754_zero s.
Proof. destruct x as [s| | |]; try discriminate. now exists s. Qed.

Lemma add_eqz_l x x' y : x ~~ x' -> F32.add x y ~~ F32.add x' y.
Proof.
  intros [->|[Hx Hx']]; [apply eqz_refl|].
  apply zero_cases in Hx, Hx'. destruct Hx as [s ->], Hx' as [s' ->].
  destruct y as [t|t| |t my ey]; try (destruct s, s', t; eqz_cases);
    eqz_cases.
Qed.

Lemma sub_eqz_r x m m' : m ~~ m' -> F32.sub x m ~~ F32.sub x m'.
Proof.
  intros [->|[Hm Hm']]; [apply eqz_refl|].
  apply zero_cases in Hm, Hm'. destruct Hm as [s ->], Hm' as [s' ->].
  destruct x as [t|t| |t mx ex]; try (destruct s, s', t; eqz_cases);
    eqz_cases.
Qed.

Lemma div_eqz_l x x' d : x ~~ x' -> F32.div x d ~~ F32.div x' d.
Proof.
  intros [->|[Hx Hx']]; [apply eqz_refl|].
  apply zero_cases in Hx, Hx'. destruct Hx as [s ->], Hx' as [s' ->].
  destruct d as [t|t| |t my ey]; eqz_cases.
Qed.

Lemma mul_self_eqz u v : u ~~ v -> F32.mul u u = F32.mul v v.
Proof.
  intros [->|[Hu Hv]]; [reflexivity|].
  apply zero_cases in Hu, Hv. destruct Hu as [s ->], Hv as [s' ->].
  now destruct s, s'.
Qed.

Lemma fold_add_opp xs : forall acc acc',
  acc' ~~ SFopp acc ->
  fold_left F32.add (map SFopp xs) acc' ~~ SFopp (fold_left F32.add xs acc).
Proof.
  induction xs as [|x xs IH]; intros acc acc' H; [exact H|].
  cbn [map fold_left]. apply IH.
  apply eqz_trans with (F32.add (SFopp acc) (SFopp x)).
  - now apply add_eqz_l.
  - apply add_opp.
Qed.

Lemma mean_of_opp xs n : mean_of (map SFopp xs) n ~~ SFopp (mean_of xs n).
Proof.
  unfold mean_of, sum_left. rewrite <- div_opp. apply div_eqz_l.
  apply fold_add_opp. right. split; reflexivity.
Qed.

Lemma sq_dev_opp m m' x : m' ~~ SFopp m -> sq_dev m' (SFopp x) = sq_dev m x.
Proof.
  intros H. unfold sq_dev.
  rewrite (mul_self_eqz (F32.sub (SFopp x) m') (SFopp (F32.sub x m))).
  - apply mul_self_opp.
  - apply eqz_trans with (F32.sub (SFopp x) (SFopp m)).
    + now apply sub_eqz_r.
    + apply sub_opp.
Qed.

Lemma fold_dev_opp m m' xs : forall acc,
  m' ~~ SFopp m ->
  fold_left (fun acc x => F32.add acc (sq_dev m' x)) (map SFopp xs) acc
  = fold_left (fun acc x => F32.add acc (sq_dev m x)) xs acc.
Proof.
  induction xs as [|x xs IH]; intros acc H; [reflexivity|].
  cbn [map fold_left]. rewrite (sq_dev_opp m m' x H). now apply IH.
Qed.

Lemma two_pass_opp xs n :
  two_pass_variance_fdiv (map SFopp xs) n = two_pass_variance_fdiv xs n.
Proof.
  unfold two_pass_variance_fdiv, sq_dev_sum.
  now rewrite (fold_dev_opp (mean_of xs n)) by apply mean_of_opp.
Qed.

(** * Further properties of [arm_var_f32] *)

(** ** Reads outside the array *)

(** X1. A call fails, by a load outside the array, exactly when
    [blockSize >= 2] and the array holds fewer than [blockSize] elements;
    the function itself checks nothing. *)
Theorem out_of_bounds_iff (a : arch) (blockSize : Z) (m : machine) :
  arm_var_f32 a blockSize m = None <->
  2 <= blockSize /\ (length (m_src m) < Z.to_nat blockSize)%nat.
Proof.
  split.
  - intros Hfail.
    destruct (Z.le_gt_cases blockSize 1) as [Hs|Hb].
    + rewrite arm_var_f32_small in Hfail by exact Hs. discriminate.
    + split; [lia|].
      destruct (Nat.le_gt_cases (Z.to_nat blockSize) (length (m_src m)))
        as [Hlen|Hlen]; [|exact Hlen].
      rewrite arm_var_f32_run in Hfail by (assumption || lia). discriminate.
  - intros [H2 Hlen]. now apply arm_var_f32_short.
Qed.

(** ** The divisor *)

(** X2. For every [uint32_t] [blockSize >= 2] the divisor of line 188,
    [(float) blockSize - 1.0f], is a positive normal float32 between 1 and
    [2^34]: the final division never divides by zero, an infinity or
    NaN. *)
Theorem divisor_positive_normal (blockSize : Z) :
  2 <= blockSize < 2 ^ 32 ->
  exists m e,
    divisor blockSize = S754_finite false m e /\
    2 ^ 23 <= Zpos m < 2 ^ 24 /\ -23 <= e <= 10 /\
    F32.valid (divisor blockSize) = true.
Proof.
  intros Hn.
  destruct (divisor_uint32_finite blockSize Hn) as (m & e & Hd & Hm & He).
  exists m, e. rewrite Hd. repeat split; try lia.
  unfold F32.valid, valid_binary, bounded, canonical_mantissa.
  rewrite (digits2_pos_unique m 24) by (change (24 - 1) with 23; lia).
  rewrite fexp32. apply andb_true_intro. split.
  - apply Z.eqb_eq. lia.
  - apply Z.leb_le. unfold F32.emax, F32.prec. lia.
Qed.

Lemma divisor_positive_normal_witness :
  exists m e,
    divisor 8 = S754_finite false m e /\
    2 ^ 23 <= Zpos m < 2 ^ 24 /\ -23 <= e <= 10 /\
    F32.valid (divisor 8) = true.
Proof. apply divisor_positive_normal. lia. Defined.

(** ** Sign of the result *)

(** X3. Whatever the input, the value a call writes is NaN or is not
    negative: [+0.0], a positive number or [+inf], never [-0.0]. *)
Theorem variance_nonneg_or_nan (a : arch) (src : list float32_t)
  (blockSize : Z) (v : float32_t) :
  var_result a src blockSize = Some v -> nonneg_or_nan v = true.
Proof.
  unfold var_result. intros Hv.
  destruct (Z.le_gt_cases blockSize 1) as [Hs|Hb].
  - rewrite arm_var_f32_small in Hv by exact Hs.
    injection Hv as <-. reflexivity.
  - destruct (Nat.le_gt_cases (Z.to_nat blockSize) (length src))
      as [Hlen|Hlen].
    + rewrite arm_var_f32_run in Hv by (assumption || lia).
      injection Hv as <-. apply two_pass_nonneg_or_nan. lia.
    + rewrite arm_var_f32_short in Hv by (assumption || lia). discriminate.
Qed.

Lemma variance_nonneg_or_nan_witness :
  nonneg_or_nan (F32.div (F32.of_Z 32) (F32.of_Z 7)) = true.
Proof.
  apply (variance_nonneg_or_nan CM4_CM7 scenario_eight 8).
  vm_compute. reflexivity.
Defined.

(** ** Which inputs give NaN *)

(** X4. For a [uint32_t] [blockSize >= 2] on an array of at least
    [blockSize] elements: when the first [blockSize] elements are all
    finite, the value written is not NaN and not negative (it is [+inf]
    when the arithmetic overflows). *)
Theorem finite_block_nonneg (a : arch) (src : list float32_t) (blockSize : Z) :
  2 <= blockSize < 2 ^ 32 ->
  (Z.to_nat blockSize <= length src)%nat ->
  forallb F32.is_finite (block src blockSize) = true ->
  exists v, var_result a src blockSize = Some v /\ nonneg v = true.
Proof.
  intros Hn Hlen Hfin. eexists. split.
  - apply var_result_run; (assumption || lia).
  - now apply two_pass_finite_nonneg.
Qed.

Lemma finite_block_nonneg_witness :
  exists v, var_result CM0_CM3 scenario_eight 8 = Some v /\ nonneg v = true.
Proof.
  apply finite_block_nonneg.
  - lia.
  - simpl. lia.
  - vm_compute. reflexivity.
Defined.

(** X5. For [blockSize >= 2] on an array of at least [blockSize]
    elements: when one of the first [blockSize] elements is an infinity,
    the value written is NaN. *)
Theorem infinity_in_block_gives_nan (a : arch) (src : list float32_t)
  (blockSize : Z) (s : bool) :
  2 <= blockSize ->
  (Z.to_nat blockSize <= length src)%nat ->
  In (S754_infinity s) (block src blockSize) ->
  var_result a src blockSize = Some F32.nan.
Proof.
  intros H2 Hlen Hin. rewrite var_result_run by assumption.
  f_equal. now apply two_pass_inf with (s := s).
Qed.

Lemma infinity_in_block_gives_nan_witness :
  var_result CM4_CM7 [F32.one; S754_infinity true; F32.one] 3 = Some F32.nan.
Proof.
  apply infinity_in_block_gives_nan with (s := true).
  - lia.
  - simpl. lia.
  - right. left. reflexivity.
Defined.

(** X6. For a [uint32_t] [blockSize >= 2] on an array of at least
    [blockSize] elements, the value written is NaN exactly when one of the
    first [blockSize] elements is an infinity or a NaN. *)
Theorem nan_iff_non_finite (a : arch) (src : list float32_t) (blockSize : Z) :
  2 <= blockSize < 2 ^ 32 ->
  (Z.to_nat blockSize <= length src)%nat ->
  var_result a src blockSize = Some F32.nan <->
  has_non_finite (block src blockSize) = true.
Proof.
  intros Hn Hlen. rewrite var_result_run by (assumption || lia).
  unfold has_non_finite. split.
  - intros Hv.
    destruct (existsb _ (block src blockSize)) eqn:He; [reflexivity|].
    assert (Hfin : forallb F32.is_finite (block src blockSize) = true).
    { apply forallb_forall. intros x Hx.
      destruct (F32.is_finite x) eqn:Hf; [reflexivity|].
      assert (existsb (fun x => negb (F32.is_finite x))
                      (block src blockSize) = true)
        by (apply existsb_exists; exists x; split;
            [exact Hx|now rewrite Hf]).
      congruence. }
    pose proof (two_pass_finite_nonneg _ _ Hn Hfin) as Hnn.
    injection Hv as Hv. rewrite Hv in Hnn. discriminate.
  - intros He. apply existsb_exists in He. destruct He as (x & Hx & Hf).
    f_equal. destruct x as [s|s| |s m e]; try discriminate.
    + now apply two_pass_inf with (s := s); [lia|].
    + now apply two_pass_nan.
Qed.

Lemma nan_iff_non_finite_witness :
  var_result CM4_CM7 scenario_eight 8 = Some F32.nan <->
  has_non_finite (block scenario_eight 8) = true.
Proof.
  apply nan_iff_non_finite.
  - lia.
  - simpl. lia.
Defined.

(** ** Blocks of zeros *)

(** X7. For [blockSize >= 2] on an array of at least [blockSize]
    elements: when the first [blockSize] elements are zeros, of either
    sign, the value written is exactly [+0.0]. *)
Theorem zero_block_zero (a : arch) (src : list float32_t) (blockSize : Z) :
  2 <= blockSize ->
  (Z.to_nat blockSize <= length src)%nat ->
  forallb is_zero (block src blockSize) = true ->
  var_result a src blockSize = Some F32.zero.
Proof.
  intros H2 Hlen Hz. rewrite var_result_run by assumption.
  f_equal. now apply two_pass_zeros.
Qed.

Lemma zero_block_zero_witness :
  var_result CM4_CM7 [S754_zero true; S754_zero false; S754_zero true] 3
  = Some F32.zero.
Proof.
  apply zero_block_zero.
  - lia.
  - simpl. lia.
  - reflexivity.
Defined.

(** ** Order of the elements *)

Lemma swap_first_two_length src : length (swap_first_two src) = length src.
Proof. destruct src as [|x [|y rest]]; reflexivity. Qed.

Lemma swap_first_two_block src k :
  (2 <= k)%nat -> firstn k (swap_first_two src) = swap_first_two (firstn k src).
Proof.
  intros Hk. destruct k as [|[|k]]; try lia.
  destruct src as [|x [|y rest]]; reflexivity.
Qed.

(** X8. Exchanging the first two elements of the array changes neither
    the outcome of a call nor the value it writes, for any [blockSize]. *)
Theorem swap_first_two_same (a : arch) (src : list float32_t) (blockSize : Z) :
  var_result a (swap_first_two src) blockSize = var_result a src blockSize.
Proof.
  unfold var_result.
  destruct (Z.le_gt_cases blockSize 1) as [Hs|Hb].
  - rewrite !arm_var_f32_small by exact Hs. reflexivity.
  - destruct (Nat.le_gt_cases (Z.to_nat blockSize) (length src))
      as [Hlen|Hlen].
    + rewrite !arm_var_f32_run
        by (cbn [initial m_src]; rewrite ?swap_first_two_length;
            (assumption || lia)).
      cbn [initial m_src after_call m_result]. f_equal.
      unfold block. rewrite swap_first_two_block by lia.
      destruct (firstn (Z.to_nat blockSize) src) as [|x [|y rest]];
        try reflexivity.
      symmetry. apply two_pass_swap.
    + rewrite !arm_var_f32_short
        by (cbn [initial m_src]; rewrite ?swap_first_two_length;
            (assumption || lia)).
      reflexivity.
Qed.

(** X9. Negating every element of the array changes neither the outcome
    of a call nor the value it writes. *)
Theorem negated_input_same (a : arch) (src : list float32_t) (blockSize : Z) :
  var_result a (map SFopp src) blockSize = var_result a src blockSize.
Proof.
  unfold var_result.
  destruct (Z.le_gt_cases blockSize 1) as [Hs|Hb].
  - rewrite !arm_var_f32_small by exact Hs. reflexivity.
  - destruct (Nat.le_gt_cases (Z.to_nat blockSize) (length src))
      as [Hlen|Hlen].
    + rewrite !arm_var_f32_run
        by (cbn [initial m_src]; rewrite ?length_map; (assumption || lia)).
      cbn [initial m_src after_call m_result]. f_equal.
      unfold block. rewrite firstn_map. apply two_pass_opp.
    + rewrite !arm_var_f32_short
        by (cbn [initial m_src]; rewrite ?length_map; (assumption || lia)).
      reflexivity.
Qed.
